(** * ccan/slist: the intrusive singly-linked list, embedded in Rocq

    The development follows [ccan/slist/slist.h] and [ccan/slist/slist.c].
    A list is a circular chain of [struct slist_node] cells threaded
    through the sentinel stored in [struct slist_head]; all the
    operations are a handful of loads and stores of [next] fields, so the
    embedding is a small state-and-error monad over a store of such
    fields. *)

From stdpp Require Import gmap strings list fin_maps.

#[local] Set Warnings "-clear-no-such-hyp".

(** ** Pointers and the store *)

(** A C pointer is either the null pointer or an address inside an
    allocated object: a block identifier and a byte offset in it.
    Pointer arithmetic ([(char * )p - off]) moves the offset inside the
    block and can never turn an object pointer into [NULL]. *)
Inductive ptr : Type :=
  | NULL
  | Ptr (b : positive) (ofs : Z).

#[global] Instance ptr_eq_dec : EqDecision ptr.
Proof. solve_decision. Defined.

(** The store holds, for each address at which a [struct slist_node]
    has been written, the value of its only field, [next].  An address
    that is absent has never been written: reading it is an error. *)
Abbreviation heap := (gmap (positive * Z) ptr).

(** Outcome of running a piece of code: a value, an invalid memory
    access (null or uninitialised), a call to [abort()], or a loop that
    was cut by its step bound. *)
Inductive res (A : Type) : Type :=
  | Ret (a : A)
  | Fault
  | Aborted
  | Timeout.
Arguments Ret {A} a.
Arguments Fault {A}.
Arguments Aborted {A}.
Arguments Timeout {A}.

(** Computations over a state [S]. *)
Definition M (S A : Type) : Type := S → res (A * S).

#[global] Instance M_ret {S} : MRet (M S) :=
  λ A a s, Ret (a, s).

#[global] Instance M_bind {S} : MBind (M S) :=
  λ A B (k : A → M S B) (c : M S A) s,
    match c s with
    | Ret (a, s') => k a s'
    | Fault => Fault
    | Aborted => Aborted
    | Timeout => Timeout
    end.

Definition fault {S A} : M S A := λ _, Fault.
Definition abort {S A} : M S A := λ _, Aborted.
Definition timeout {S A} : M S A := λ _, Timeout.

(** [p->next] as an r-value. *)
Definition next (m : heap) (p : ptr) : option ptr :=
  match p with
  | NULL => None
  | Ptr b o => m !! (b, o)
  end.

Definition load (p : ptr) : M heap ptr :=
  λ m, match next m p with
       | Some v => Ret (v, m)
       | None => Fault
       end.

(** [p->next = v]. *)
Definition store (p v : ptr) : M heap unit :=
  λ m, match p with
       | NULL => Fault
       | Ptr b o => Ret (tt, <[(b, o) := v]> m)
       end.

(** [(char * )p + d], for a possibly negative [d]. *)
Definition ptr_offset (p : ptr) (d : Z) : option ptr :=
  match p with
  | NULL => None
  | Ptr b o => Some (Ptr b (o + d))
  end.

Definition lift_ptr {S} (o : option ptr) : M S ptr :=
  match o with
  | Some p => mret p
  | None => fault
  end.

(** ** The raw list engine ([slist.h], [CCAN_SLIST_DEBUG] undefined) *)

(** [&h->n]: the sentinel is the first and only member of
    [struct slist_head], so it lives at the head's own address. *)
Definition head_n (h : ptr) : ptr := h.

(** A [const char *abortstr]: [None] is the null string. *)
Abbreviation cstr := (option string).

Definition SLIST_LOC : cstr := Some "slist.h"%string.

(** [#define slist_debug(h, loc) ((void)loc, h)] *)
Definition slist_debug {S} (h : ptr) (loc : cstr) : M S ptr := mret h.

(** [#define slist_debug_node(n, loc) ((void)loc, n)] *)
Definition slist_debug_node {S} (n : ptr) (loc : cstr) : M S ptr := mret n.

(** [slist_check_node], the [#else] branch of [slist.c]. *)
Definition slist_check_node {S} (node : ptr) (abortstr : cstr) : M S ptr :=
  mret node.

Definition is_null (p : ptr) : bool :=
  match p with NULL => true | Ptr _ _ => false end.

(** [slist_check], written over the checker it calls. *)
Definition slist_check_with {S} (check_node : ptr → cstr → M S ptr)
    (h : ptr) (abortstr : cstr) : M S ptr :=
  r ← check_node (head_n h) abortstr;
  if is_null r then mret NULL else mret h.

Definition slist_check {S} : ptr → cstr → M S ptr :=
  slist_check_with slist_check_node.

Definition slist_head_init (h : ptr) : M heap unit :=
  store (head_n h) (head_n h).

Definition slist_add_after_ (h p n : ptr) (abortstr : cstr) : M heap unit :=
  x ← load p;
  store n x;;
  store p n;;
  _ ← slist_debug h abortstr;
  mret tt.

Definition slist_add_ (h n : ptr) (abortstr : cstr) : M heap unit :=
  x ← load (head_n h);
  store n x;;
  store (head_n h) n.

Definition slist_empty_ (h : ptr) (abortstr : cstr) : M heap bool :=
  _ ← slist_debug h abortstr;
  x ← load (head_n h);
  mret (bool_decide (x = head_n h)).

Definition slist_empty (h : ptr) : M heap bool := slist_empty_ h SLIST_LOC.

Definition slist_add (h n : ptr) : M heap unit := slist_add_ h n SLIST_LOC.

Definition slist_add_after (h p n : ptr) : M heap unit :=
  slist_add_after_ h p n SLIST_LOC.

(** [size_t off]; [(const char * )n - off]. *)
Definition slist_node_to_off_ {S} (node : ptr) (off : N) : M S ptr :=
  lift_ptr (ptr_offset node (- Z.of_N off)).

Definition slist_node_from_off_ {S} (p : ptr) (off : N) : M S ptr :=
  lift_ptr (ptr_offset p (Z.of_N off)).

Definition slist_top_ (h : ptr) (off : N) : M heap ptr :=
  e ← slist_empty h;
  if e : bool then mret NULL
  else
    x ← load (head_n h);
    lift_ptr (ptr_offset x (- Z.of_N off)).

Definition slist_pop_ (h : ptr) (off : N) : M heap ptr :=
  e ← slist_empty h;
  if e : bool then mret NULL
  else
    n ← load (head_n h);
    x ← load n;
    store (head_n h) x;;
    lift_ptr (ptr_offset n (- Z.of_N off)).

(** The [for] loop of [slist_for_each_off], with a body that records
    the value of [i] at each iteration.  The loop has no bound of its
    own (on a chain that never comes back to the head it runs for
    ever), so the embedding carries a step bound. *)
Fixpoint slist_for_each_from (fuel : nat) (h : ptr) (off : N) (i : ptr)
    : M heap (list ptr) :=
  match fuel with
  | O => timeout
  | S fuel' =>
      cur ← slist_node_from_off_ i off;
      if bool_decide (cur = head_n h) then mret []
      else
        nx ← load cur;
        i' ← slist_node_to_off_ nx off;
        rest ← slist_for_each_from fuel' h off i';
        mret (i :: rest)
  end.

Definition slist_for_each_off (fuel : nat) (h : ptr) (off : N)
    : M heap (list ptr) :=
  h' ← slist_debug h SLIST_LOC;
  first ← load (head_n h');
  i ← slist_node_to_off_ first off;
  slist_for_each_from fuel h off i.

(** The same [for] loop with a body of the caller's.  The body sees
    [i] and its own variables [a]; it answers with their new value and
    with [true] when it leaves the loop by [break].  ([continue] goes to
    the increment, like falling off the end of the body.)  Bodies of
    this shape do not write to the links. *)
Fixpoint slist_for_each_from_do {A} (body : ptr → A → A * bool)
    (fuel : nat) (h : ptr) (off : N) (i : ptr) (a : A) : M heap A :=
  match fuel with
  | O => timeout
  | S fuel' =>
      cur ← slist_node_from_off_ i off;
      if bool_decide (cur = head_n h) then mret a
      else
        let '(a', brk) := body i a in
        if brk : bool then mret a'
        else
          nx ← load cur;
          i' ← slist_node_to_off_ nx off;
          slist_for_each_from_do body fuel' h off i' a'
  end.

Definition slist_for_each_off_do {A} (body : ptr → A → A * bool)
    (fuel : nat) (h : ptr) (off : N) (a : A) : M heap A :=
  h' ← slist_debug h SLIST_LOC;
  first ← load (head_n h');
  i ← slist_node_to_off_ first off;
  slist_for_each_from_do body fuel h off i a.

(** [slist_entry_or_null] *)
Definition slist_entry_or_null {S} (h n : ptr) (off : N) : M S ptr :=
  if bool_decide (n = head_n h) then mret NULL
  else lift_ptr (ptr_offset n (- Z.of_N off)).

(** [slist_next(h, i, member)]: [(i)->member.next] is read at the
    address of [i] plus the offset of [member]. *)
Definition slist_next (h i : ptr) (off : N) : M heap ptr :=
  h' ← slist_debug h SLIST_LOC;
  member ← lift_ptr (ptr_offset i (Z.of_N off));
  n ← load member;
  slist_entry_or_null h' n off.

(** [slist_for_each(h, i, member)] is [slist_for_each_off] at the
    offset of [member] in the type of [i]. *)
Definition slist_for_each (fuel : nat) (h : ptr) (member_off : N)
    : M heap (list ptr) :=
  slist_for_each_off fuel h member_off.

(** ** The integrity checker of a debug build ([CCAN_SLIST_DEBUG] defined)

    The [#ifdef] branch of [slist.c] reads a field [prev] of
    [struct slist_node].  The structure declared in [slist.h] has no such
    field.  To give the checker a meaning at all, the debug store pairs
    the [next] fields with a second table for the [prev] field the
    checker expects; no operation of [slist.h] ever writes that table. *)
Module Debug.

Record dstore : Type := DStore {
  nexts : heap;
  prevs : heap;
}.

(** An operation of [slist.h], run on the debug store. *)
Definition on_nexts {A} (c : M heap A) : M dstore A :=
  λ d, match c (nexts d) with
       | Ret (a, m') => Ret (a, DStore m' (prevs d))
       | Fault => Fault
       | Aborted => Aborted
       | Timeout => Timeout
       end.

Definition load_next (p : ptr) : M dstore ptr := on_nexts (load p).

(** [p->prev] as an r-value. *)
Definition load_prev (p : ptr) : M dstore ptr :=
  λ d, match next (prevs d) p with
       | Some v => Ret (v, d)
       | None => Fault
       end.

(** [corrupt]: with an abort string, print it and [abort()];
    without one, return [NULL].  (The diagnostic goes to [stderr] and is
    not part of the state.) *)
Definition corrupt (abortstr : cstr) (head node : ptr) (count : Z)
    : M dstore ptr :=
  match abortstr with
  | Some _ => abort
  | None => mret NULL
  end.

(** The [for] loop of [slist_check_node] and the test that follows it,
    entered with the current values of [p], [n] and [count]. *)
Fixpoint slist_check_node_loop (fuel : nat) (node : ptr) (abortstr : cstr)
    (p n : ptr) (count : Z) : M dstore ptr :=
  match fuel with
  | O => timeout
  | S fuel' =>
      if bool_decide (n ≠ node) then
        let count := (count + 1)%Z in
        pv ← load_prev n;
        if bool_decide (pv ≠ p) then corrupt abortstr node n count
        else
          nx ← load_next n;
          slist_check_node_loop fuel' node abortstr n nx count
      else
        pv ← load_prev node;
        if bool_decide (pv ≠ p) then corrupt abortstr node node 0
        else mret node
  end.

Definition slist_check_node (fuel : nat) (node : ptr) (abortstr : cstr)
    : M dstore ptr :=
  n ← load_next node;
  slist_check_node_loop fuel node abortstr node n 0.

Definition slist_check (fuel : nat) : ptr → cstr → M dstore ptr :=
  slist_check_with (slist_check_node fuel).

(** [#define slist_debug(h, loc) slist_check((h), loc)] *)
Definition slist_debug (fuel : nat) (h : ptr) (loc : cstr) : M dstore ptr :=
  slist_check fuel h loc.

Definition slist_head_init (h : ptr) : M dstore unit :=
  on_nexts (slist_head_init h).

(** [slist_add_] calls no checker, in either build. *)
Definition slist_add_ (h n : ptr) (abortstr : cstr) : M dstore unit :=
  on_nexts (slist_add_ h n abortstr).

End Debug.

(** ** Specification vocabulary *)

(** The owner record of the link [n], for a link that is [off] bytes
    into its record. *)
Definition entry (off : N) (n : ptr) : ptr :=
  default NULL (ptr_offset n (- Z.of_N off)).

(** The store after [p->next = v], for a [p] that is not null. *)
Definition updated (m : heap) (p v : ptr) : heap :=
  match p with
  | NULL => m
  | Ptr b o => <[(b, o) := v]> m
  end.

(** [chain m p l q]: in [m], the [next] fields lead from [p] through
    the links [l], in order, and then to [q]. *)
Fixpoint chain (m : heap) (p : ptr) (l : list ptr) (q : ptr) : Prop :=
  match l with
  | [] => next m p = Some q
  | n :: l' => next m p = Some n ∧ chain m n l' q
  end.

#[global] Instance chain_dec m p l q : Decision (chain m p l q).
Proof. revert p; induction l as [|n l IH]; intros p; simpl; apply _. Defined.

(** [is_slist m h l]: the list anchored at [h] is the cycle that leaves
    the sentinel, goes through the links [l] (all different, none of
    them the sentinel) and comes back to the sentinel. *)
Definition is_slist (m : heap) (h : ptr) (l : list ptr) : Prop :=
  chain m (head_n h) l (head_n h) ∧ NoDup (head_n h :: l).

#[global] Instance is_slist_dec m h l : Decision (is_slist m h l).
Proof. unfold is_slist; apply _. Defined.

(** Following [next] references [k] times from [p]. *)
Fixpoint follow (m : heap) (p : ptr) (k : nat) : option ptr :=
  match k with
  | O => Some p
  | S k' => next m p ≫= λ q, follow m q k'
  end.

(** [n] is in the chain of [h]: some number of [next] steps from the
    sentinel arrives at it. *)
Definition linked (m : heap) (h n : ptr) : Prop :=
  ∃ k, follow m (head_n h) k = Some n.

(** The states a list can be in: those obtained from an initialised head
    by the operations of [slist.h], each used as documented (a link that
    is inserted is not in the chain already; the link after which
    [slist_add_after] inserts is in the chain). *)
Inductive reachable (h : ptr) : heap → Prop :=
  | reach_init m0 m :
      slist_head_init h m0 = Ret (tt, m) →
      reachable h m
  | reach_add m n loc m' :
      reachable h m →
      ¬ linked m h n →
      slist_add_ h n loc m = Ret (tt, m') →
      reachable h m'
  | reach_add_after m p n loc m' :
      reachable h m →
      linked m h p →
      ¬ linked m h n →
      slist_add_after_ h p n loc m = Ret (tt, m') →
      reachable h m'
  | reach_pop m off r m' :
      reachable h m →
      slist_pop_ h off m = Ret (r, m') →
      reachable h m'.

(** [pchain pm p l q]: in the table [pm] of [prev] fields, the first
    link of [l] points back to [p], each later one to the link before
    it, and [q] to the last of [p :: l]. *)
Fixpoint pchain (pm : heap) (p : ptr) (l : list ptr) (q : ptr) : Prop :=
  match l with
  | [] => next pm q = Some p
  | n :: l' => next pm n = Some p ∧ pchain pm n l' q
  end.

(** Running a loop body over the entries [es] until it breaks. *)
Fixpoint fold_break {A} (body : ptr → A → A * bool) (es : list ptr) (a : A)
    : A :=
  match es with
  | [] => a
  | e :: es' =>
      let '(a', brk) := body e a in
      if brk : bool then a' else fold_break body es' a'
  end.

(** Prepending the links of [ns], first to last. *)
Fixpoint slist_add_all (h : ptr) (ns : list ptr) : M heap unit :=
  match ns with
  | [] => mret tt
  | n :: ns' => slist_add h n;; slist_add_all h ns'
  end.

(** Popping [k] times, the results dropped. *)
Fixpoint slist_pop_times (h : ptr) (off : N) (k : nat) : M heap unit :=
  match k with
  | O => mret tt
  | S k' => _ ← slist_pop_ h off; slist_pop_times h off k'
  end.

(** ** The scenario of [test/run.c]

    A [struct parent] and three [struct child], each in a block of its
    own.  In both structures a [const char *name] of eight bytes comes
    first, so the head [parent.children] and the links [c.slist] are at
    offset 8 of their blocks. *)
Module Scenario.

Definition off : N := 8.
Definition children : ptr := Ptr 1 8.
Definition c1 : ptr := Ptr 2 0.
Definition c2 : ptr := Ptr 3 0.
Definition c3 : ptr := Ptr 4 0.
Definition c1_slist : ptr := Ptr 2 8.
Definition c2_slist : ptr := Ptr 3 8.
Definition c3_slist : ptr := Ptr 4 8.

(** The store of a program that has touched no link yet. *)
Definition blank : heap := ∅.

Definition state_of (c : M heap unit) (m : heap) : heap :=
  match c m with
  | Ret (_, m') => m'
  | _ => m
  end.

(** After [slist_head_init(&parent.children)]. *)
Definition fresh : heap := state_of (slist_head_init children) blank.

(** After adding [c3]. *)
Definition one : heap := state_of (slist_add children c3_slist) fresh.

(** After adding [c3] and then [c2]. *)
Definition two : heap := state_of (slist_add children c2_slist) one.

(** After adding [c3], [c2] and then [c1]. *)
Definition three : heap := state_of (slist_add children c1_slist) two.

End Scenario.

(** Closed decidable facts about the scenario are settled by evaluation. *)
Ltac decide_closed := apply (bool_decide_unpack _); vm_compute; exact I.

(** ** Running monadic code *)

Lemma run_bind {S A B} (c : M S A) (k : A → M S B) (s : S) :
  (c ≫= k) s =
  match c s with
  | Ret (a, s') => k a s'
  | Fault => Fault
  | Aborted => Aborted
  | Timeout => Timeout
  end.
Proof. reflexivity. Qed.

Lemma run_bind_ret {S A B} (c : M S A) (k : A → M S B) (s s' : S) (a : A) :
  c s = Ret (a, s') → (c ≫= k) s = k a s'.
Proof. intros H. rewrite run_bind, H. reflexivity. Qed.

Lemma run_ret {S A} (a : A) (s : S) : (mret a : M S A) s = Ret (a, s).
Proof. reflexivity. Qed.

Lemma load_ret m p v : next m p = Some v → load p m = Ret (v, m).
Proof. intros H. unfold load. rewrite H. reflexivity. Qed.

Lemma load_inv m p v m' : load p m = Ret (v, m') → next m p = Some v ∧ m' = m.
Proof. unfold load. destruct (next m p); intros [=]; subst; auto. Qed.

Lemma next_not_null m p v : next m p = Some v → p ≠ NULL.
Proof. intros H ->. discriminate. Qed.

Lemma store_ret m p v : p ≠ NULL → store p v m = Ret (tt, updated m p v).
Proof. destruct p; [congruence | reflexivity]. Qed.

Lemma store_inv m p v m' :
  store p v m = Ret (tt, m') → p ≠ NULL ∧ m' = updated m p v.
Proof. destruct p; simpl; intros [=]; subst; auto. Qed.

Lemma next_updated_eq m p v : p ≠ NULL → next (updated m p v) p = Some v.
Proof. destruct p; [congruence|]. intros _. simpl. apply lookup_insert_eq. Qed.

Lemma next_updated_ne m p v q : q ≠ p → next (updated m p v) q = next m q.
Proof.
  destruct p as [|b o]; [reflexivity|]. destruct q as [|b' o']; [reflexivity|].
  intros Hne. simpl. apply lookup_insert_ne. congruence.
Qed.

Lemma updated_id m p v : next m p = Some v → updated m p v = m.
Proof. destruct p; [reflexivity|]. simpl. apply insert_id. Qed.

Lemma updated_twice m p v w : updated (updated m p v) p w = updated m p w.
Proof. destruct p; [reflexivity|]. simpl. apply insert_insert_eq. Qed.

Lemma updated_comm m p v q w :
  p ≠ q → updated (updated m p v) q w = updated (updated m q w) p v.
Proof.
  destruct p, q; try reflexivity. intros Hne. simpl.
  apply insert_insert_ne. congruence.
Qed.

(** ** Chains *)

Lemma chain_not_null m p l q : chain m p l q → p ≠ NULL.
Proof. destruct l; simpl; [|intros [? _]]; eauto using next_not_null. Qed.

Lemma chain_all_not_null m p l q : chain m p l q → NULL ∉ p :: l.
Proof.
  revert p. induction l as [|n l IH]; intros p Hc.
  - apply chain_not_null in Hc. set_solver.
  - pose proof (chain_not_null _ _ _ _ Hc). destruct Hc as [_ Hc].
    apply IH in Hc. set_solver.
Qed.

Lemma chain_app m p l1 n l2 q :
  chain m p (l1 ++ n :: l2) q ↔ chain m p l1 n ∧ chain m n l2 q.
Proof.
  revert p. induction l1 as [|a l1 IH]; intros p; simpl; [tauto|].
  rewrite IH. tauto.
Qed.

(** Writing outside a chain leaves it alone. *)
Lemma chain_updated_frame m p l q x v :
  x ∉ p :: l → chain m p l q → chain (updated m x v) p l q.
Proof.
  revert p. induction l as [|n l IH]; intros p Hx; simpl.
  - rewrite next_updated_ne by set_solver. done.
  - intros [Hn Hc]. rewrite next_updated_ne by set_solver.
    split; [done|]. apply IH; [set_solver | done].
Qed.

Lemma chain_first m p l q : chain m p l q → next m p = Some (hd q l).
Proof. destruct l; simpl; tauto. Qed.

Lemma chain_functional m p l1 l2 q :
  q ∉ l1 → q ∉ l2 → chain m p l1 q → chain m p l2 q → l1 = l2.
Proof.
  revert p l2. induction l1 as [|a l1 IH]; intros p [|b l2] H1 H2; simpl.
  - done.
  - intros Hq [Hb _]. rewrite Hq in Hb. set_solver.
  - intros [Ha _] Hq. rewrite Hq in Ha. set_solver.
  - intros [Ha Hc1] [Hb Hc2]. rewrite Ha in Hb. injection Hb as ->.
    f_equal. apply (IH b); [set_solver | set_solver | done | done].
Qed.

Lemma is_slist_functional m h l1 l2 : is_slist m h l1 → is_slist m h l2 → l1 = l2.
Proof.
  intros [Hc1 Hd1] [Hc2 Hd2]. apply NoDup_cons in Hd1 as [? _].
  apply NoDup_cons in Hd2 as [? _]. eauto using chain_functional.
Qed.

(** ** What each operation does to a well-formed list *)

Lemma slist_head_init_spec m0 h :
  h ≠ NULL →
  slist_head_init h m0 = Ret (tt, updated m0 h h) ∧
  is_slist (updated m0 h h) h [].
Proof.
  intros Hh. unfold slist_head_init, head_n. rewrite store_ret by done.
  split; [done|]. split; simpl.
  - by apply next_updated_eq.
  - apply NoDup_singleton.
Qed.

Lemma slist_head_init_inv m0 h m :
  slist_head_init h m0 = Ret (tt, m) → is_slist m h [].
Proof.
  intros H. apply store_inv in H as [Hh ->].
  by apply slist_head_init_spec.
Qed.

Lemma slist_add_run m h n loc x :
  next m h = Some x → n ≠ NULL →
  slist_add_ h n loc m = Ret (tt, updated (updated m n x) h n).
Proof.
  intros Hx Hn. unfold slist_add_, head_n.
  rewrite (run_bind_ret _ _ _ _ _ (load_ret _ _ _ Hx)).
  rewrite (run_bind_ret _ _ _ _ _ (store_ret _ _ _ Hn)).
  apply store_ret. eauto using next_not_null.
Qed.

Lemma slist_add_after_run m h p n loc x :
  next m p = Some x → n ≠ NULL →
  slist_add_after_ h p n loc m = Ret (tt, updated (updated m n x) p n).
Proof.
  intros Hx Hn. unfold slist_add_after_.
  rewrite (run_bind_ret _ _ _ _ _ (load_ret _ _ _ Hx)).
  rewrite (run_bind_ret _ _ _ _ _ (store_ret _ _ _ Hn)).
  rewrite (run_bind_ret _ _ _ _ _ (store_ret _ _ _ (next_not_null _ _ _ Hx))).
  reflexivity.
Qed.

(** Inserting [n] after the last link of [s :: l1] in a chain. *)
Lemma chain_insert_after m s l1 l2 q p n x :
  chain m s (l1 ++ l2) q →
  last (s :: l1) = Some p →
  next m p = Some x →
  NoDup (s :: l1 ++ l2) →
  n ∉ s :: l1 ++ l2 → n ≠ NULL →
  chain (updated (updated m n x) p n) s (l1 ++ n :: l2) q.
Proof.
  revert s. induction l1 as [|a l1 IH]; intros s Hc Hl Hx Hd Hn Hnn.
  - simpl in *. injection Hl as ->.
    assert (Hp : p ≠ NULL) by eauto using next_not_null.
    split; [by apply next_updated_eq|].
    apply NoDup_cons in Hd as [Hpl _].
    apply chain_first in Hc as Hf. rewrite Hx in Hf. injection Hf as ->.
    destruct l2 as [|b l2]; simpl in *.
    + rewrite next_updated_ne by set_solver. by apply next_updated_eq.
    + destruct Hc as [_ Hc]. rewrite next_updated_ne by set_solver.
      split; [by apply next_updated_eq|].
      apply chain_updated_frame; [set_solver|].
      apply chain_updated_frame; [set_solver|]. done.
  - simpl in Hc. destruct Hc as [Ha Hc]. rewrite last_cons_cons in Hl.
    apply NoDup_cons in Hd as [Hs Hd].
    assert (p ∈ a :: l1) by (apply last_Some_elem_of; done).
    simpl. split.
    + rewrite !next_updated_ne; [done| set_solver | set_solver].
    + apply IH; [done | done | done | done | set_solver | done].
Qed.

Lemma slist_add_after_spec m h l1 l2 p n loc :
  is_slist m h (l1 ++ l2) →
  last (head_n h :: l1) = Some p →
  n ∉ head_n h :: l1 ++ l2 → n ≠ NULL →
  ∃ m', slist_add_after_ h p n loc m = Ret (tt, m') ∧
        is_slist m' h (l1 ++ n :: l2).
Proof.
  intros [Hc Hd] Hl Hn Hnn.
  assert (∃ x, next m p = Some x) as [x Hx].
  { destruct l1 as [|a l1 _] using rev_ind.
    - simpl in Hl. injection Hl as <-. eauto using chain_first.
    - rewrite app_comm_cons, last_snoc in Hl. injection Hl as ->.
      rewrite <- app_assoc in Hc. simpl in Hc. apply chain_app in Hc as [_ Hc].
      eauto using chain_first. }
  eexists. split; [by apply slist_add_after_run|]. split.
  - by apply chain_insert_after.
  - apply NoDup_cons in Hd as [Hh Hd]. apply NoDup_cons. split.
    + set_solver.
    + apply NoDup_app in Hd as (H1 & H12 & H2). apply NoDup_app.
      split_and!; [done | | apply NoDup_cons; set_solver].
      intros y Hy. specialize (H12 y Hy). set_solver.
Qed.

Lemma slist_add_spec m h l n loc :
  is_slist m h l → n ∉ head_n h :: l → n ≠ NULL →
  ∃ m', slist_add_ h n loc m = Ret (tt, m') ∧ is_slist m' h (n :: l).
Proof.
  intros Hl Hn Hnn. destruct Hl as [Hc Hd].
  pose proof (chain_first _ _ _ _ Hc) as Hx.
  eexists. split; [by apply slist_add_run|]. split.
  - by apply (chain_insert_after m (head_n h) [] l).
  - apply NoDup_cons in Hd as [Hh Hd]. rewrite !NoDup_cons. set_solver.
Qed.

Lemma slist_empty_run m h x :
  next m h = Some x →
  slist_empty h m = Ret (bool_decide (x = head_n h), m).
Proof.
  intros Hx. unfold slist_empty, slist_empty_, slist_debug, head_n.
  rewrite run_bind, run_ret.
  rewrite (run_bind_ret _ _ _ _ _ (load_ret _ _ _ Hx)). reflexivity.
Qed.

Lemma slist_empty_inv m h e m' :
  slist_empty h m = Ret (e, m') →
  ∃ x, next m h = Some x ∧ e = bool_decide (x = head_n h) ∧ m' = m.
Proof.
  unfold slist_empty, slist_empty_, slist_debug, head_n.
  rewrite run_bind, run_ret, run_bind. unfold load.
  destruct (next m h) as [x|]; [|discriminate].
  rewrite run_ret. intros [=]; subst. eauto.
Qed.

Lemma entry_run {S} off n (s : S) :
  n ≠ NULL → lift_ptr (ptr_offset n (- Z.of_N off)) s = Ret (entry off n, s).
Proof. destruct n; [congruence | reflexivity]. Qed.

Lemma entry_not_null off n : n ≠ NULL → entry off n ≠ NULL.
Proof. destruct n; [congruence | discriminate]. Qed.

Lemma entry_inj off n1 n2 :
  n1 ≠ NULL → n2 ≠ NULL → entry off n1 = entry off n2 → n1 = n2.
Proof.
  destruct n1, n2; try congruence. unfold entry; simpl.
  intros _ _ [=]. f_equal; [done | lia].
Qed.

Lemma slist_node_from_off_entry {S} off n (s : S) :
  n ≠ NULL → slist_node_from_off_ (entry off n) off s = Ret (n, s).
Proof.
  destruct n as [|b o]; [congruence|]. intros _.
  unfold slist_node_from_off_, entry; simpl. rewrite run_ret.
  do 3 f_equal. lia.
Qed.

Lemma slist_top_empty m h off :
  next m h = Some (head_n h) → slist_top_ h off m = Ret (NULL, m).
Proof.
  intros Hx. unfold slist_top_.
  rewrite (run_bind_ret _ _ _ _ _ (slist_empty_run _ _ _ Hx)).
  by rewrite bool_decide_eq_true_2.
Qed.

Lemma slist_top_run m h off n :
  next m h = Some n → n ≠ head_n h → n ≠ NULL →
  slist_top_ h off m = Ret (entry off n, m).
Proof.
  intros Hx Hne Hn. unfold slist_top_.
  rewrite (run_bind_ret _ _ _ _ _ (slist_empty_run _ _ _ Hx)).
  rewrite bool_decide_eq_false_2 by done. unfold head_n.
  rewrite (run_bind_ret _ _ _ _ _ (load_ret _ _ _ Hx)).
  by apply entry_run.
Qed.

Lemma slist_pop_empty m h off :
  next m h = Some (head_n h) → slist_pop_ h off m = Ret (NULL, m).
Proof.
  intros Hx. unfold slist_pop_.
  rewrite (run_bind_ret _ _ _ _ _ (slist_empty_run _ _ _ Hx)).
  by rewrite bool_decide_eq_true_2.
Qed.

Lemma slist_pop_run m h off n x :
  next m h = Some n → n ≠ head_n h → next m n = Some x →
  slist_pop_ h off m = Ret (entry off n, updated m h x).
Proof.
  intros Hn Hne Hx. unfold slist_pop_.
  rewrite (run_bind_ret _ _ _ _ _ (slist_empty_run _ _ _ Hn)).
  rewrite bool_decide_eq_false_2 by done. unfold head_n.
  rewrite (run_bind_ret _ _ _ _ _ (load_ret _ _ _ Hn)).
  rewrite (run_bind_ret _ _ _ _ _ (load_ret _ _ _ Hx)).
  rewrite (run_bind_ret _ _ _ _ _ (store_ret _ _ _ (next_not_null _ _ _ Hn))).
  apply entry_run. eauto using next_not_null.
Qed.

Lemma slist_pop_spec m h off n l :
  is_slist m h (n :: l) →
  slist_pop_ h off m = Ret (entry off n, updated m h (hd (head_n h) l)) ∧
  is_slist (updated m h (hd (head_n h) l)) h l.
Proof.
  intros [[Hn Hc] Hd]. apply NoDup_cons in Hd as [Hh Hd].
  pose proof (chain_first _ _ _ _ Hc) as Hx. split.
  - apply slist_pop_run; [done | set_solver | done].
  - apply NoDup_cons in Hd as [Hnl Hd]. split; [|apply NoDup_cons; set_solver].
    assert (Hhn : head_n h ≠ NULL) by eauto using next_not_null.
    destruct l as [|b l]; simpl in *.
    + by apply next_updated_eq.
    + split; [by apply next_updated_eq|]. destruct Hc as [_ Hc].
      apply chain_updated_frame; [set_solver | done].
Qed.

Lemma slist_pop_nil m h off :
  is_slist m h [] → slist_pop_ h off m = Ret (NULL, m).
Proof. intros [Hc _]. by apply slist_pop_empty. Qed.

(** ** Traversal *)

Lemma slist_for_each_from_head fuel m h off :
  head_n h ≠ NULL →
  slist_for_each_from (S fuel) h off (entry off (head_n h)) m = Ret ([], m).
Proof.
  intros Hh. simpl.
  rewrite (run_bind_ret _ _ _ _ _ (slist_node_from_off_entry _ _ _ Hh)).
  by rewrite bool_decide_eq_true_2.
Qed.

Lemma slist_for_each_from_chain fuel m h off x l :
  chain m x l (head_n h) → head_n h ∉ x :: l → head_n h ≠ NULL →
  length l < fuel →
  slist_for_each_from (S fuel) h off (entry off x) m
  = Ret (entry off <$> x :: l, m).
Proof.
  revert fuel x. induction l as [|y l IH]; intros fuel x Hc Hh Hhn Hf.
  - simpl in Hc. pose proof (next_not_null _ _ _ Hc) as Hx.
    cbn [slist_for_each_from].
    rewrite (run_bind_ret _ _ _ _ _ (slist_node_from_off_entry _ _ _ Hx)).
    rewrite bool_decide_eq_false_2 by set_solver.
    rewrite (run_bind_ret _ _ _ _ _ (load_ret _ _ _ Hc)).
    unfold slist_node_to_off_.
    rewrite (run_bind_ret _ _ _ _ _ (entry_run _ _ _ Hhn)).
    destruct fuel as [|fuel]; [simpl in Hf; lia|].
    rewrite (run_bind_ret _ _ _ _ _ (slist_for_each_from_head _ _ _ _ Hhn)).
    reflexivity.
  - destruct Hc as [Hy Hc]. pose proof (next_not_null _ _ _ Hy) as Hx.
    pose proof (chain_not_null _ _ _ _ Hc) as Hyn.
    cbn [slist_for_each_from].
    rewrite (run_bind_ret _ _ _ _ _ (slist_node_from_off_entry _ _ _ Hx)).
    rewrite bool_decide_eq_false_2 by set_solver.
    rewrite (run_bind_ret _ _ _ _ _ (load_ret _ _ _ Hy)).
    unfold slist_node_to_off_.
    rewrite (run_bind_ret _ _ _ _ _ (entry_run _ _ _ Hyn)).
    destruct fuel as [|fuel]; [simpl in Hf; lia|].
    rewrite (run_bind_ret _ _ _ _ _
               (IH fuel y Hc ltac:(set_solver) Hhn ltac:(simpl in Hf; lia))).
    reflexivity.
Qed.

(** A traversal of a well-formed list visits the owner records of its
    links in chain order, and needs one loop test more than there are
    links. *)
Lemma slist_for_each_off_spec fuel m h off l :
  is_slist m h l → length l < fuel →
  slist_for_each_off fuel h off m = Ret (entry off <$> l, m).
Proof.
  intros [Hc Hd] Hf. apply NoDup_cons in Hd as [Hh _].
  pose proof (chain_not_null _ _ _ _ Hc) as Hhn.
  unfold slist_for_each_off, slist_debug. rewrite run_bind, run_ret.
  destruct fuel as [|fuel]; [lia|].
  destruct l as [|x l].
  - simpl in Hc.
    rewrite (run_bind_ret _ _ _ _ _ (load_ret _ _ _ Hc)).
    unfold slist_node_to_off_.
    rewrite (run_bind_ret _ _ _ _ _ (entry_run _ _ _ Hhn)).
    by apply slist_for_each_from_head.
  - destruct Hc as [Hx Hc].
    rewrite (run_bind_ret _ _ _ _ _ (load_ret _ _ _ Hx)).
    unfold slist_node_to_off_.
    rewrite (run_bind_ret _ _ _ _ _ (entry_run _ _ _ (chain_not_null _ _ _ _ Hc))).
    apply slist_for_each_from_chain; [done | done | done | simpl in Hf; lia].
Qed.

(** ** Following the chain *)

Lemma follow_plus m p a b :
  follow m p (a + b) = follow m p a ≫= λ q, follow m q b.
Proof.
  revert p. induction a as [|a IH]; intros p; simpl; [done|].
  destruct (next m p) as [q|]; simpl; [apply IH | done].
Qed.

Lemma follow_chain m p l q j :
  chain m p l q → j ≤ S (length l) →
  follow m p j = (p :: l ++ [q]) !! j.
Proof.
  revert p j. induction l as [|n l IH]; intros p j Hc Hj.
  - simpl in Hc. destruct j as [|[|j]]; simpl in *; [done | | lia].
    by rewrite Hc.
  - destruct Hc as [Hn Hc]. destruct j as [|j]; [done|].
    cbn [follow]. rewrite Hn. simpl in Hj. simpl.
    rewrite (IH n j Hc) by lia. done.
Qed.

Lemma follow_chain_end m p l q :
  chain m p l q → follow m p (S (length l)) = Some q.
Proof.
  intros Hc. rewrite (follow_chain m p l q) by (done || lia).
  rewrite lookup_cons. rewrite lookup_app_r by lia.
  by rewrite Nat.sub_diag.
Qed.

Lemma follow_chain_inside m p l q j :
  chain m p l q → j ≤ length l → follow m p j = (p :: l) !! j.
Proof.
  intros Hc Hj. rewrite (follow_chain m p l q) by (done || lia).
  rewrite app_comm_cons. apply lookup_app_l. simpl. lia.
Qed.

Lemma is_slist_follow m h l k n :
  is_slist m h l → follow m (head_n h) k = Some n → n ∈ head_n h :: l.
Proof.
  intros [Hc _]. revert n.
  induction (lt_wf k) as [k _ IH]. intros n Hk.
  destruct (decide (k ≤ length l)) as [Hle|Hgt].
  - rewrite (follow_chain_inside _ _ _ _ _ Hc Hle) in Hk.
    by eapply list_elem_of_lookup_2.
  - replace k with (S (length l) + (k - S (length l))) in Hk by lia.
    rewrite follow_plus, (follow_chain_end _ _ _ _ Hc) in Hk. simpl in Hk.
    apply (IH (k - S (length l))); [lia | done].
Qed.

Lemma is_slist_linked m h l n :
  is_slist m h l → linked m h n ↔ n ∈ head_n h :: l.
Proof.
  intros Hl. split.
  - intros [k Hk]. eauto using is_slist_follow.
  - intros [i Hi]%list_elem_of_lookup_1. exists i.
    destruct Hl as [Hc _]. rewrite (follow_chain_inside _ _ _ _ _ Hc); [done|].
    apply lookup_lt_Some in Hi. simpl in Hi. lia.
Qed.

(** Every reachable state is a well-formed list. *)
Lemma reachable_is_slist h m : reachable h m → ∃ l, is_slist m h l.
Proof.
  induction 1 as [m0 m Hi | m n loc m' _ [l Hl] Hn Hadd
                 | m p n loc m' _ [l Hl] Hp Hn Hadd
                 | m off r m' _ [l Hl] Hpop].
  - exists []. eauto using slist_head_init_inv.
  - rewrite (is_slist_linked _ _ _ _ Hl) in Hn.
    assert (Hnn : n ≠ NULL).
    { intros ->. destruct Hl as [Hc _]. pose proof (chain_first _ _ _ _ Hc) as Hx.
      unfold slist_add_ in Hadd.
      rewrite (run_bind_ret _ _ _ _ _ (load_ret _ _ _ Hx)) in Hadd.
      discriminate. }
    destruct (slist_add_spec m h l n loc Hl Hn Hnn) as (m'' & Hrun & Hl').
    rewrite Hrun in Hadd. injection Hadd as <-. eauto.
  - rewrite (is_slist_linked _ _ _ _ Hl) in Hn.
    rewrite (is_slist_linked _ _ _ _ Hl) in Hp.
    apply list_elem_of_split in Hp as (pre & l2 & Hsplit).
    assert (∃ l1, l = l1 ++ l2 ∧ last (head_n h :: l1) = Some p)
      as (l1 & -> & Hlast).
    { destruct pre as [|a pre]; simpl in Hsplit.
      - injection Hsplit as -> ->. by exists [].
      - injection Hsplit as -> ->. exists (pre ++ [p]).
        rewrite <- app_assoc. split; [done|].
        by rewrite app_comm_cons, last_snoc. }
    assert (Hnn : n ≠ NULL).
    { intros ->. destruct Hl as [Hc _].
      assert (∃ x, next m p = Some x) as [x Hx].
      { destruct l1 as [|a l1 _] using rev_ind.
        - simpl in Hlast. injection Hlast as <-. eauto using chain_first.
        - rewrite app_comm_cons, last_snoc in Hlast. injection Hlast as ->.
          rewrite <- app_assoc in Hc. simpl in Hc.
          apply chain_app in Hc as [_ Hc]. eauto using chain_first. }
      unfold slist_add_after_ in Hadd.
      rewrite (run_bind_ret _ _ _ _ _ (load_ret _ _ _ Hx)) in Hadd.
      discriminate. }
    destruct (slist_add_after_spec m h l1 l2 p n loc Hl Hlast Hn Hnn)
      as (m'' & Hrun & Hl').
    rewrite Hrun in Hadd. injection Hadd as <-. eauto.
  - destruct l as [|n l].
    + rewrite (slist_pop_nil _ _ _ Hl) in Hpop. injection Hpop as <- <-. eauto.
    + destruct (slist_pop_spec m h off n l Hl) as [Hrun Hl'].
      rewrite Hrun in Hpop. injection Hpop as <- <-. eauto.
Qed.

(** ** Sequences of prepends and pops *)

Lemma slist_add_all_spec m h l ns :
  is_slist m h l → NoDup ns → (∀ n, n ∈ ns → n ∉ head_n h :: l) → NULL ∉ ns →
  ∃ m', slist_add_all h ns m = Ret (tt, m') ∧ is_slist m' h (reverse ns ++ l).
Proof.
  revert m l. induction ns as [|n ns IH]; intros m l Hl Hd Hfresh Hnn.
  - exists m. split; [reflexivity | done].
  - apply NoDup_cons in Hd as [Hn Hd].
    destruct (slist_add_spec m h l n SLIST_LOC Hl) as (m1 & Hrun & Hl1);
      [set_solver | set_solver |].
    destruct (IH m1 (n :: l) Hl1 Hd) as (m' & Hrun' & Hl'); [set_solver.. |].
    exists m'. split.
    + cbn [slist_add_all]. unfold slist_add.
      rewrite (run_bind_ret _ _ _ _ _ Hrun). done.
    + by rewrite reverse_cons, <- app_assoc.
Qed.

Lemma slist_pop_times_spec m h off l k :
  is_slist m h l →
  ∃ m', slist_pop_times h off k m = Ret (tt, m') ∧ is_slist m' h (drop k l).
Proof.
  revert m l. induction k as [|k IH]; intros m l Hl.
  - exists m. by rewrite drop_0.
  - destruct l as [|n l].
    + destruct (IH m [] Hl) as (m' & Hrun & Hl'). rewrite drop_nil in Hl'.
      exists m'. split; [|done].
      cbn [slist_pop_times].
      rewrite (run_bind_ret _ _ _ _ _ (slist_pop_nil _ _ off Hl)).
      rewrite Hrun. done.
    + destruct (slist_pop_spec m h off n l Hl) as [Hpop Hl1].
      destruct (IH _ l Hl1) as (m' & Hrun & Hl'). exists m'. split; [|done].
      cbn [slist_pop_times]. by rewrite (run_bind_ret _ _ _ _ _ Hpop).
Qed.

(** ** The claims *)

(** C1. On a head that has just been initialised, prepending [A], then
    [B], then [C] (three different links, none of them the sentinel) with
    [slist_add] gives a list whose traversal with [slist_for_each_off]
    visits the owner record of [C], then that of [B], then that of [A]:
    the last one inserted is visited first. *)
Theorem slist_add_three_traversal (m0 : heap) (h A B C : ptr) (off : N)
    (fuel : nat) :
  NoDup [head_n h; A; B; C] →
  NULL ∉ [head_n h; A; B; C] →
  3 < fuel →
  ∃ m,
    (slist_head_init h;; slist_add h A;; slist_add h B;; slist_add h C) m0
      = Ret (tt, m) ∧
    slist_for_each_off fuel h off m
      = Ret ([entry off C; entry off B; entry off A], m) ∧
    slist_for_each fuel h off m
      = Ret ([entry off C; entry off B; entry off A], m).
Proof.
  intros Hd Hnn Hf.
  destruct (slist_head_init_spec m0 h) as [Hinit Hl0]; [set_solver|].
  destruct (slist_add_all_spec _ h [] [A; B; C] Hl0) as (m & Hrun & Hl).
  - by apply NoDup_cons in Hd as [_ Hd].
  - intros n Hn. apply NoDup_cons in Hd as [Hh _]. set_solver.
  - set_solver.
  - exists m. split.
    + rewrite (run_bind_ret _ _ _ _ _ Hinit).
      cbn [slist_add_all] in Hrun. rewrite <- Hrun.
      rewrite !run_bind.
      destruct (slist_add h A _) as [[[] m1]| | |]; [|done..].
      rewrite !run_bind.
      destruct (slist_add h B m1) as [[[] m2]| | |]; [|done..].
      rewrite !run_bind.
      destruct (slist_add h C m2) as [[[] m3]| | |]; done.
    + split; by apply (slist_for_each_off_spec fuel m h off [C; B; A]).
Qed.

Lemma slist_add_three_traversal_witness :
  slist_for_each_off 4 Scenario.children Scenario.off Scenario.three
  = Ret ([Scenario.c1; Scenario.c2; Scenario.c3], Scenario.three).
Proof.
  destruct (slist_add_three_traversal Scenario.blank Scenario.children
              Scenario.c3_slist Scenario.c2_slist Scenario.c1_slist
              Scenario.off 4) as (m & Hrun & Htrav).
  - apply (bool_decide_unpack _). vm_compute. exact I.
  - apply (bool_decide_unpack _). vm_compute. exact I.
  - lia.
  - vm_compute in Hrun. injection Hrun as <-. exact (proj1 Htrav).
Defined.

(** The part of a cycle that lies after one of its links. *)
Lemma is_slist_suffix m h l i p :
  is_slist m h l → (head_n h :: l) !! i = Some p →
  ∃ suf, chain m p suf (head_n h) ∧ length suf = length l - i ∧ suf ⊆ l.
Proof.
  intros [Hc Hd] Hi. destruct i as [|i]; simpl in Hi.
  - injection Hi as <-. exists l. split_and!; [done | lia | done].
  - apply list_elem_of_split_length in Hi as (pre & suf & -> & ->).
    apply chain_app in Hc as [_ Hc]. exists suf. split_and!; [done | |].
    + rewrite length_app. simpl. lia.
    + set_solver.
Qed.

(** C2, as amended.  In every state reachable from an initialised head
    by [slist_head_init], [slist_add], [slist_add_after] and [slist_pop],
    the chain is one cycle through the sentinel: there is a list [l] of
    [k] different links, none of them the sentinel, which are exactly the
    links a traversal visits and, with the sentinel, exactly the links
    reached from the head.  From the link at position [i] of the cycle
    (the sentinel at 0, the live elements at 1..k) the [next] references
    come back to the sentinel after exactly [k + 1 - i] steps, and not
    before: [k] steps from the first element, [k + 1] from the sentinel
    itself. *)
Theorem slist_single_cycle (h : ptr) (m : heap) :
  reachable h m →
  ∃ l,
    NoDup (head_n h :: l) ∧
    (∀ p, linked m h p ↔ p ∈ head_n h :: l) ∧
    (∀ off fuel, length l < fuel →
       slist_for_each_off fuel h off m = Ret (entry off <$> l, m)) ∧
    (∀ i p, (head_n h :: l) !! i = Some p →
       follow m p (S (length l) - i) = Some (head_n h) ∧
       ∀ j, 0 < j < S (length l) - i → follow m p j ≠ Some (head_n h)).
Proof.
  intros [l Hl]%reachable_is_slist. exists l. split_and!.
  - by destruct Hl.
  - intros p. by apply is_slist_linked.
  - intros off fuel Hf. by apply slist_for_each_off_spec.
  - intros i p Hi.
    destruct (is_slist_suffix _ _ _ _ _ Hl Hi) as (suf & Hc & Hlen & Hsub).
    apply lookup_lt_Some in Hi as Hlt. simpl in Hlt.
    replace (S (length l) - i) with (S (length suf)) by lia. split.
    + by apply follow_chain_end.
    + intros j Hj. rewrite (follow_chain_inside _ _ _ _ _ Hc) by lia.
      destruct j as [|j]; [lia|]. simpl. intros Hin.
      apply list_elem_of_lookup_2 in Hin. destruct Hl as [_ Hd].
      apply NoDup_cons in Hd as [Hh _]. set_solver.
Qed.

Lemma scenario_two_reachable : reachable Scenario.children Scenario.two.
Proof.
  apply (reach_add _ Scenario.one Scenario.c2_slist SLIST_LOC).
  - apply (reach_add _ Scenario.fresh Scenario.c3_slist SLIST_LOC).
    + by apply (reach_init _ Scenario.blank).
    + rewrite (is_slist_linked _ _ []) by decide_closed. decide_closed.
    + vm_compute. reflexivity.
  - rewrite (is_slist_linked _ _ [Scenario.c3_slist]) by decide_closed.
    decide_closed.
  - vm_compute. reflexivity.
Qed.

Lemma slist_single_cycle_witness :
  ∃ l,
    NoDup (head_n Scenario.children :: l) ∧
    (∀ p, linked Scenario.two Scenario.children p
          ↔ p ∈ head_n Scenario.children :: l) ∧
    (∀ off fuel, length l < fuel →
       slist_for_each_off fuel Scenario.children off Scenario.two
       = Ret (entry off <$> l, Scenario.two)) ∧
    (∀ i p, (head_n Scenario.children :: l) !! i = Some p →
       follow Scenario.two p (S (length l) - i)
       = Some (head_n Scenario.children) ∧
       ∀ j, 0 < j < S (length l) - i →
            follow Scenario.two p j ≠ Some (head_n Scenario.children)).
Proof.
  apply (slist_single_cycle Scenario.children Scenario.two).
  apply (reach_add _ Scenario.one Scenario.c2_slist SLIST_LOC).
  - apply (reach_add _ Scenario.fresh Scenario.c3_slist SLIST_LOC).
    + by apply (reach_init _ Scenario.blank).
    + rewrite (is_slist_linked _ _ []) by decide_closed. decide_closed.
    + vm_compute. reflexivity.
  - rewrite (is_slist_linked _ _ [Scenario.c3_slist]) by decide_closed.
    decide_closed.
  - vm_compute. reflexivity.
Defined.

(** C2 as it is worded fails.  After [slist_add] of [c3] and then of
    [c2] the list has two live elements and its cycle is
    [children -> c2 -> c3 -> children].  Two steps from [c3] end on [c2],
    not on the sentinel (which was reached after one step); two steps
    from the sentinel end on [c3]. *)
Lemma slist_cycle_steps_counterexample :
  ¬ (∀ (h : ptr) (m : heap) (l : list ptr) (p : ptr),
       reachable h m → is_slist m h l → linked m h p →
       follow m p (length l) = Some (head_n h)).
Proof.
  intros Hclaim.
  specialize (Hclaim Scenario.children Scenario.two
                [Scenario.c2_slist; Scenario.c3_slist] Scenario.c3_slist
                scenario_two_reachable ltac:(decide_closed)).
  assert (Hlk : linked Scenario.two Scenario.children Scenario.c3_slist)
    by (exists 2; reflexivity).
  specialize (Hclaim Hlk). vm_compute in Hclaim. discriminate.
Qed.

(** [slist_top_] and [slist_pop_] begin with [slist_empty]; what they
    return is decided by its answer. *)
Lemma slist_top_inv_null m h off m' :
  slist_top_ h off m = Ret (NULL, m') → slist_empty h m = Ret (true, m).
Proof.
  unfold slist_top_. rewrite run_bind.
  destruct (slist_empty h m) as [[e m1]| | |] eqn:He; try discriminate.
  apply slist_empty_inv in He as (x & Hx & -> & ->).
  case_bool_decide as Hxh; [done|]. unfold head_n.
  rewrite (run_bind_ret _ _ _ _ _ (load_ret _ _ _ Hx)).
  destruct x; simpl; intros [=].
Qed.

Lemma slist_pop_inv_null m h off m' :
  slist_pop_ h off m = Ret (NULL, m') → slist_empty h m = Ret (true, m).
Proof.
  unfold slist_pop_. rewrite run_bind.
  destruct (slist_empty h m) as [[e m1]| | |] eqn:He; try discriminate.
  apply slist_empty_inv in He as (x & Hx & -> & ->).
  case_bool_decide as Hxh; [done|]. unfold head_n.
  rewrite (run_bind_ret _ _ _ _ _ (load_ret _ _ _ Hx)).
  rewrite run_bind. destruct (load x m) as [[y m1]| | |]; try discriminate.
  rewrite run_bind. destruct (store h y m1) as [[[] m2]| | |]; try discriminate.
  destruct x; simpl; intros [=].
Qed.

Lemma slist_empty_true_inv m h m' :
  slist_empty h m = Ret (true, m') → next m h = Some (head_n h).
Proof.
  intros (x & Hx & He & _)%slist_empty_inv.
  symmetry in He. apply bool_decide_eq_true_1 in He. by subst.
Qed.

(** C4. [slist_top_] and [slist_pop_] return [NULL] exactly when
    [slist_empty] says that the list is empty, and then they return it as
    an ordinary result, with the store unchanged: the absence of an
    element is not a fault.  On a well-formed list of links [l] that is
    exactly when [l] is empty; otherwise [slist_top_] returns the owner
    record of the first link, which is not null.  In particular, on a
    head that [slist_head_init] has just initialised, [slist_empty] is
    true and both return [NULL]. *)
Theorem slist_top_pop_null_iff_empty (h : ptr) (off : N) :
  (∀ m : heap,
     (slist_top_ h off m = Ret (NULL, m) ↔ slist_empty h m = Ret (true, m)) ∧
     (slist_pop_ h off m = Ret (NULL, m) ↔ slist_empty h m = Ret (true, m)) ∧
     (∀ m', slist_top_ h off m = Ret (NULL, m') → m' = m) ∧
     (∀ m', slist_pop_ h off m = Ret (NULL, m') → m' = m)) ∧
  (∀ (m : heap) (l : list ptr),
     is_slist m h l →
     slist_empty h m = Ret (bool_decide (l = []), m) ∧
     (slist_top_ h off m = Ret (NULL, m) ↔ l = []) ∧
     (slist_pop_ h off m = Ret (NULL, m) ↔ l = []) ∧
     slist_top_ h off m = Ret (entry off (hd NULL l), m)) ∧
  (∀ m0 m : heap,
     slist_head_init h m0 = Ret (tt, m) →
     slist_empty h m = Ret (true, m) ∧
     slist_top_ h off m = Ret (NULL, m) ∧
     slist_pop_ h off m = Ret (NULL, m)).
Proof.
  split_and!.
  - intros m. split_and!.
    + split; [apply slist_top_inv_null|].
      intros He%slist_empty_true_inv. by apply slist_top_empty.
    + split; [apply slist_pop_inv_null|].
      intros He%slist_empty_true_inv. by apply slist_pop_empty.
    + intros m' Ht. pose proof (slist_top_inv_null _ _ _ _ Ht) as He.
      apply slist_empty_true_inv in He.
      rewrite (slist_top_empty _ _ off He) in Ht. congruence.
    + intros m' Ht. pose proof (slist_pop_inv_null _ _ _ _ Ht) as He.
      apply slist_empty_true_inv in He.
      rewrite (slist_pop_empty _ _ off He) in Ht. congruence.
  - intros m l Hl. destruct l as [|n l].
    + pose proof Hl as [Hc _]. simpl in Hc. split_and!.
      * by rewrite (slist_empty_run m h _ Hc), bool_decide_eq_true_2.
      * split; [done|]. intros _. by apply slist_top_empty.
      * split; [done|]. intros _. by apply slist_pop_empty.
      * by apply slist_top_empty.
    + pose proof Hl as [[Hn Hc] Hd]. apply NoDup_cons in Hd as [Hh _].
      pose proof (chain_not_null _ _ _ _ Hc) as Hnn.
      assert (Hne : n ≠ head_n h) by set_solver.
      pose proof (slist_top_run m h off n Hn Hne Hnn) as Htop.
      destruct (slist_pop_spec m h off n l Hl) as [Hpop _].
      split_and!.
      * rewrite (slist_empty_run m h _ Hn).
        by rewrite bool_decide_eq_false_2, bool_decide_eq_false_2.
      * split; [|done]. rewrite Htop. intros [= He].
        by apply entry_not_null in He.
      * split; [|done]. rewrite Hpop. intros [= He].
        by apply entry_not_null in He.
      * done.
  - intros m0 m [Hc _]%slist_head_init_inv. simpl in Hc. split_and!.
    + rewrite (slist_empty_run m h _ Hc). by rewrite bool_decide_eq_true_2.
    + by apply slist_top_empty.
    + by apply slist_pop_empty.
Qed.

Lemma slist_top_pop_null_iff_empty_witness :
  (slist_empty Scenario.children Scenario.fresh = Ret (true, Scenario.fresh) ∧
   slist_top_ Scenario.children Scenario.off Scenario.fresh
   = Ret (NULL, Scenario.fresh) ∧
   slist_pop_ Scenario.children Scenario.off Scenario.fresh
   = Ret (NULL, Scenario.fresh)) ∧
  slist_top_ Scenario.children Scenario.off Scenario.three
  = Ret (Scenario.c1, Scenario.three).
Proof.
  split.
  - apply (proj2 (proj2 (slist_top_pop_null_iff_empty Scenario.children
                           Scenario.off))
             Scenario.blank Scenario.fresh).
    vm_compute. reflexivity.
  - apply (proj1 (proj2 (slist_top_pop_null_iff_empty Scenario.children
                           Scenario.off))
             Scenario.three
             [Scenario.c1_slist; Scenario.c2_slist; Scenario.c3_slist]).
    decide_closed.
Defined.

(** C5. On a non-empty list, whose first link is [n], [slist_pop_]
    returns the owner record of [n], which is the address of [n] minus
    the displacement, and leaves the head's link referring to the
    successor [n] had; what remains is the list of the other links.  On
    an empty list it returns [NULL] and the store, the head included, is
    as it was. *)
Theorem slist_pop_first_or_null (m : heap) (h : ptr) (off : N) :
  (∀ n l, is_slist m h (n :: l) →
     ∃ s m',
       next m n = Some s ∧
       slist_pop_ h off m = Ret (entry off n, m') ∧
       ptr_offset n (- Z.of_N off) = Some (entry off n) ∧
       next m' (head_n h) = Some s ∧
       is_slist m' h l) ∧
  (is_slist m h [] →
     slist_pop_ h off m = Ret (NULL, m) ∧ next m (head_n h) = Some (head_n h)).
Proof.
  split.
  - intros n l Hl. destruct (slist_pop_spec m h off n l Hl) as [Hpop Hl'].
    destruct Hl as [[Hn Hc] _].
    exists (hd (head_n h) l), (updated m h (hd (head_n h) l)). split_and!.
    + eauto using chain_first.
    + done.
    + pose proof (chain_not_null _ _ _ _ Hc). by destruct n.
    + apply next_updated_eq. eauto using next_not_null.
    + done.
  - intros Hl. split; [by apply slist_pop_nil | by destruct Hl].
Qed.

Lemma slist_pop_first_or_null_witness :
  (∃ s m',
     next Scenario.three Scenario.c1_slist = Some s ∧
     slist_pop_ Scenario.children Scenario.off Scenario.three
     = Ret (entry Scenario.off Scenario.c1_slist, m') ∧
     ptr_offset Scenario.c1_slist (- Z.of_N Scenario.off)
     = Some (entry Scenario.off Scenario.c1_slist) ∧
     next m' (head_n Scenario.children) = Some s ∧
     is_slist m' Scenario.children [Scenario.c2_slist; Scenario.c3_slist]) ∧
  slist_pop_ Scenario.children Scenario.off Scenario.fresh
  = Ret (NULL, Scenario.fresh).
Proof.
  split.
  - apply (proj1 (slist_pop_first_or_null Scenario.three Scenario.children
                    Scenario.off)).
    decide_closed.
  - apply (proj2 (slist_pop_first_or_null Scenario.fresh Scenario.children
                    Scenario.off)).
    decide_closed.
Defined.

(** C6. After [slist_head_init] and [k] uses of [slist_add], on [k]
    different links that are not the sentinel, a traversal visits exactly
    [k] owner records (those of the links, last added first); after [k]
    uses of [slist_pop_] on that list a traversal visits none. *)
Theorem slist_add_pop_cardinality (m0 : heap) (h : ptr) (ns : list ptr)
    (off : N) (fuel : nat) :
  NoDup (head_n h :: ns) →
  NULL ∉ head_n h :: ns →
  length ns < fuel →
  ∃ m1 m2 visited,
    (slist_head_init h;; slist_add_all h ns) m0 = Ret (tt, m1) ∧
    slist_for_each_off fuel h off m1 = Ret (visited, m1) ∧
    visited = entry off <$> reverse ns ∧
    length visited = length ns ∧
    slist_pop_times h off (length ns) m1 = Ret (tt, m2) ∧
    slist_for_each_off fuel h off m2 = Ret ([], m2).
Proof.
  intros Hd Hnn Hf. apply NoDup_cons in Hd as [Hh Hd].
  destruct (slist_head_init_spec m0 h) as [Hinit Hl0]; [set_solver|].
  destruct (slist_add_all_spec _ h [] ns Hl0 Hd) as (m1 & Hrun & Hl1);
    [set_solver | set_solver |].
  rewrite app_nil_r in Hl1.
  destruct (slist_pop_times_spec m1 h off _ (length ns) Hl1) as (m2 & Hpop & Hl2).
  rewrite drop_ge in Hl2 by (rewrite length_reverse; lia).
  exists m1, m2, (entry off <$> reverse ns). split_and!.
  - by rewrite (run_bind_ret _ _ _ _ _ Hinit).
  - apply slist_for_each_off_spec; [done|]. by rewrite length_reverse.
  - done.
  - by rewrite length_fmap, length_reverse.
  - done.
  - apply (slist_for_each_off_spec fuel m2 h off []); [done | simpl; lia].
Qed.

Lemma slist_add_pop_cardinality_witness :
  ∃ m1 m2 visited,
    (slist_head_init Scenario.children;;
     slist_add_all Scenario.children
       [Scenario.c3_slist; Scenario.c2_slist; Scenario.c1_slist]) Scenario.blank
    = Ret (tt, m1) ∧
    slist_for_each_off 4 Scenario.children Scenario.off m1 = Ret (visited, m1) ∧
    visited = entry Scenario.off
              <$> reverse [Scenario.c3_slist; Scenario.c2_slist; Scenario.c1_slist] ∧
    length visited = 3 ∧
    slist_pop_times Scenario.children Scenario.off 3 m1 = Ret (tt, m2) ∧
    slist_for_each_off 4 Scenario.children Scenario.off m2 = Ret ([], m2).
Proof.
  apply (slist_add_pop_cardinality Scenario.blank Scenario.children
           [Scenario.c3_slist; Scenario.c2_slist; Scenario.c1_slist]
           Scenario.off 4).
  - decide_closed.
  - decide_closed.
  - simpl. lia.
Defined.

(** C7. On a non-empty list, [slist_pop_] followed by [slist_add] of
    the link of the record that was popped puts the store back as it
    was, so a traversal visits the same records in the same order as
    before the two calls. *)
Theorem slist_pop_add_restores (m : heap) (h : ptr) (off : N) (n : ptr)
    (l : list ptr) (fuel : nat) :
  is_slist m h (n :: l) →
  length (n :: l) < fuel →
  ∃ e m1 m2 visited,
    slist_pop_ h off m = Ret (e, m1) ∧
    slist_node_from_off_ e off m1 = Ret (n, m1) ∧
    slist_add h n m1 = Ret (tt, m2) ∧
    slist_for_each_off fuel h off m = Ret (visited, m) ∧
    slist_for_each_off fuel h off m2 = Ret (visited, m2) ∧
    visited = entry off <$> n :: l ∧
    m2 = m.
Proof.
  intros Hl Hf. destruct (slist_pop_spec m h off n l Hl) as [Hpop Hl1].
  pose proof Hl as [[Hn Hc] Hd].
  pose proof (chain_not_null _ _ _ _ Hc) as Hnn.
  pose proof (chain_first _ _ _ _ Hc) as Hs.
  set (s := hd (head_n h) l) in *.
  assert (Hhn : h ≠ n).
  { apply NoDup_cons in Hd as [Hh _]. unfold head_n in Hh. set_solver. }
  assert (Hm : updated (updated (updated m h s) n s) h n = m).
  { rewrite (updated_comm m h s n s) by done.
    rewrite (updated_id m n s) by done.
    rewrite updated_twice. by apply updated_id. }
  exists (entry off n), (updated m h s), m, (entry off <$> n :: l). split_and!.
  - done.
  - by apply slist_node_from_off_entry.
  - unfold slist_add. rewrite <- Hm at 2. apply slist_add_run; [|done].
    apply next_updated_eq. eauto using next_not_null.
  - by apply slist_for_each_off_spec.
  - by apply slist_for_each_off_spec.
  - done.
  - done.
Qed.

Lemma slist_pop_add_restores_witness :
  ∃ e m1 m2 visited,
    slist_pop_ Scenario.children Scenario.off Scenario.three = Ret (e, m1) ∧
    slist_node_from_off_ e Scenario.off m1 = Ret (Scenario.c1_slist, m1) ∧
    slist_add Scenario.children Scenario.c1_slist m1 = Ret (tt, m2) ∧
    slist_for_each_off 4 Scenario.children Scenario.off Scenario.three
    = Ret (visited, Scenario.three) ∧
    slist_for_each_off 4 Scenario.children Scenario.off m2 = Ret (visited, m2) ∧
    visited = entry Scenario.off
              <$> [Scenario.c1_slist; Scenario.c2_slist; Scenario.c3_slist] ∧
    m2 = Scenario.three.
Proof.
  apply (slist_pop_add_restores Scenario.three Scenario.children Scenario.off
           Scenario.c1_slist [Scenario.c2_slist; Scenario.c3_slist] 4).
  - decide_closed.
  - simpl. lia.
Defined.

(** C8. Without [CCAN_SLIST_DEBUG], [slist_check_node], [slist_check]
    and the macros [slist_debug] and [slist_debug_node] do nothing: each
    returns the pointer it was given and leaves the state as it was,
    whatever the state and the abort string.  The result is therefore
    non-null for every pointer to a node or a head. *)
Theorem slist_check_node_noop {S : Type} (node : ptr) (abortstr : cstr)
    (s : S) :
  slist_check_node node abortstr s = Ret (node, s) ∧
  slist_debug_node node abortstr s = Ret (node, s) ∧
  slist_debug node abortstr s = Ret (node, s) ∧
  (node ≠ NULL →
   slist_check node abortstr s = Ret (node, s) ∧
   ∃ r, slist_check_node node abortstr s = Ret (r, s) ∧ is_null r = false).
Proof.
  split_and!; try reflexivity.
  intros Hn. split.
  - unfold slist_check, slist_check_with, slist_check_node, head_n.
    rewrite run_bind, run_ret. by destruct node.
  - exists node. split; [reflexivity | by destruct node].
Qed.

Lemma slist_check_node_noop_witness :
  slist_check Scenario.children None Scenario.three
  = Ret (Scenario.children, Scenario.three) ∧
  ∃ r, slist_check_node Scenario.c1_slist None Scenario.three
       = Ret (r, Scenario.three) ∧ is_null r = false.
Proof.
  split.
  - apply (proj2 (proj2 (proj2 (slist_check_node_noop Scenario.children None
                                  Scenario.three)))).
    discriminate.
  - apply (proj2 (proj2 (proj2 (slist_check_node_noop Scenario.c1_slist None
                                  Scenario.three)))).
    discriminate.
Defined.

(** C9. [slist_add_(h, n)] and [slist_add_after_(h, &h->n, n)] are the
    same computation: on every store they fail together or return the
    same store. *)
Theorem slist_add_is_add_after_head (m : heap) (h n : ptr)
    (loc loc' : cstr) :
  slist_add_ h n loc m = slist_add_after_ h (head_n h) n loc' m.
Proof.
  unfold slist_add_, slist_add_after_, slist_debug. rewrite !run_bind.
  destruct (load (head_n h) m) as [[x m1]| | |]; [|done..].
  rewrite !run_bind.
  destruct (store n x m1) as [[[] m2]| | |]; [|done..].
  rewrite !run_bind.
  destruct (store (head_n h) n m2) as [[[] m3]| | |]; done.
Qed.

(** C10. On a non-empty list [slist_pop_] writes one cell, the [next]
    field of the sentinel.  The [next] field of the link it removes
    still refers to what followed it (the second link, or the sentinel
    when it was alone), and the [next] field of every address other than
    the sentinel's reads as it did before. *)
Theorem slist_pop_frame (m : heap) (h : ptr) (off : N) (n : ptr)
    (l : list ptr) :
  is_slist m h (n :: l) →
  ∃ m',
    slist_pop_ h off m = Ret (entry off n, m') ∧
    next m' n = Some (hd (head_n h) l) ∧
    next m' n = next m n ∧
    (∀ q, q ≠ head_n h → next m' q = next m q) ∧
    (∀ b o, Ptr b o ≠ head_n h → m' !! (b, o) = m !! (b, o)).
Proof.
  intros Hl. destruct (slist_pop_spec m h off n l Hl) as [Hpop _].
  destruct Hl as [[Hn Hc] Hd]. apply NoDup_cons in Hd as [Hh _].
  assert (Hframe : ∀ q, q ≠ head_n h →
            next (updated m h (hd (head_n h) l)) q = next m q).
  { intros q Hq. by apply next_updated_ne. }
  eexists. split_and!; [exact Hpop | | | exact Hframe |].
  - rewrite Hframe by set_solver. eauto using chain_first.
  - apply Hframe. set_solver.
  - intros b o Hq. exact (Hframe (Ptr b o) Hq).
Qed.

Lemma slist_pop_frame_witness :
  ∃ m',
    slist_pop_ Scenario.children Scenario.off Scenario.three
    = Ret (entry Scenario.off Scenario.c1_slist, m') ∧
    next m' Scenario.c1_slist
    = Some (hd (head_n Scenario.children) [Scenario.c2_slist; Scenario.c3_slist]) ∧
    next m' Scenario.c1_slist = next Scenario.three Scenario.c1_slist ∧
    (∀ q, q ≠ head_n Scenario.children → next m' q = next Scenario.three q) ∧
    (∀ b o, Ptr b o ≠ head_n Scenario.children →
            m' !! (b, o) = Scenario.three !! (b, o)).
Proof.
  apply (slist_pop_frame Scenario.three Scenario.children Scenario.off
           Scenario.c1_slist [Scenario.c2_slist; Scenario.c3_slist]).
  decide_closed.
Defined.

(** ** The checker of a debug build *)

(** The operations of [slist.h] leave the [prev] table alone. *)
Lemma debug_on_nexts_prevs {A} (c : M heap A) d a d' :
  Debug.on_nexts c d = Ret (a, d') → Debug.prevs d' = Debug.prevs d.
Proof.
  unfold Debug.on_nexts. destruct (c (Debug.nexts d)) as [[a' m']| | |];
    intros [=]; by subst.
Qed.

(** Unless the [prev] table already says that the sentinel is its own
    predecessor, which [slist_head_init] does not write, the checker
    does not accept the list [slist_head_init] has made. *)
Lemma debug_check_fresh_head fuel h abortstr d d' :
  Debug.slist_head_init h d = Ret (tt, d') →
  next (Debug.prevs d) h ≠ Some h →
  ∀ r d'', Debug.slist_check fuel h abortstr d' = Ret (r, d'') → r = NULL.
Proof.
  intros Hinit Hprev r d''.
  pose proof (debug_on_nexts_prevs _ _ _ _ Hinit) as Hp.
  unfold Debug.slist_head_init, Debug.on_nexts in Hinit.
  destruct (slist_head_init h (Debug.nexts d)) as [[[] m']| | |] eqn:Hi;
    try discriminate.
  injection Hinit as <-. apply slist_head_init_inv in Hi as [Hc _].
  simpl in Hc. unfold head_n in Hc.
  unfold Debug.slist_check, slist_check_with, Debug.slist_check_node, head_n.
  rewrite !run_bind. unfold Debug.load_next, Debug.on_nexts, load. simpl.
  rewrite Hc. destruct fuel as [|fuel]; [done|]. simpl.
  rewrite bool_decide_eq_false_2 by (intros Hne; by apply Hne).
  rewrite run_bind. unfold Debug.load_prev. simpl.
  destruct (next (Debug.prevs d) h) as [pv|] eqn:Hpv; [|done].
  rewrite bool_decide_eq_true_2 by congruence.
  destruct abortstr; simpl; [done|]. by intros [= <- _].
Qed.

(** C3, at its failing input.  With [CCAN_SLIST_DEBUG] defined,
    [slist_check] on the head that [slist_head_init] has just
    initialised (the first checks of [test/run.c]) does not report
    success: it reads the [prev] field of the sentinel, which nothing has
    written; where that memory happens to hold a null pointer it returns
    [NULL] when called without an abort string, and aborts when called
    with one. *)
Theorem debug_check_rejects_fresh_head (fuel : nat) :
  let unwritten := Debug.DStore Scenario.fresh ∅ in
  let zeroed := Debug.DStore Scenario.fresh {[ (1%positive, 8%Z) := NULL ]} in
  Debug.slist_head_init Scenario.children (Debug.DStore Scenario.blank ∅)
  = Ret (tt, unwritten) ∧
  Debug.slist_check (S fuel) Scenario.children None unwritten = Fault ∧
  Debug.slist_check (S fuel) Scenario.children None zeroed
  = Ret (NULL, zeroed) ∧
  Debug.slist_check (S fuel) Scenario.children SLIST_LOC zeroed = Aborted.
Proof. repeat split. Qed.

(** ** Further properties of the engine *)

(** X1. The two offset helpers are inverse to each other on every
    pointer that is not null: from a link to its record and back, and
    from a record to its link and back. *)
Theorem slist_node_off_round_trip {S : Type} (p : ptr) (off : N) (s : S) :
  p ≠ NULL →
  (slist_node_to_off_ p off ≫= λ i, slist_node_from_off_ i off) s
  = Ret (p, s) ∧
  (slist_node_from_off_ p off ≫= λ n, slist_node_to_off_ n off) s
  = Ret (p, s).
Proof.
  destruct p as [|b o]; [congruence|]. intros _.
  split; cbv [slist_node_to_off_ slist_node_from_off_ lift_ptr ptr_offset
              mbind M_bind mret M_ret]; do 3 f_equal; lia.
Qed.

Lemma slist_node_off_round_trip_witness :
  (slist_node_to_off_ Scenario.c1_slist Scenario.off
     ≫= λ i, slist_node_from_off_ i Scenario.off) Scenario.three
  = Ret (Scenario.c1_slist, Scenario.three) ∧
  (slist_node_from_off_ Scenario.c1 Scenario.off
     ≫= λ n, slist_node_to_off_ n Scenario.off) Scenario.three
  = Ret (Scenario.c1, Scenario.three).
Proof.
  split.
  - apply (slist_node_off_round_trip Scenario.c1_slist). discriminate.
  - apply (slist_node_off_round_trip Scenario.c1). discriminate.
Defined.

(** X2. [slist_entry_or_null] answers [NULL] exactly for the sentinel;
    for any other link it answers the record of that link, from which
    [slist_node_from_off_] finds the link again. *)
Theorem slist_entry_or_null_spec {S : Type} (h n : ptr) (off : N) (s : S) :
  n ≠ NULL →
  ∃ r,
    slist_entry_or_null h n off s = Ret (r, s) ∧
    (r = NULL ↔ n = head_n h) ∧
    (n ≠ head_n h → r = entry off n ∧ slist_node_from_off_ r off s = Ret (n, s)).
Proof.
  intros Hn. unfold slist_entry_or_null. case_bool_decide as Hh.
  - exists NULL. split_and!; [done | done | done].
  - exists (entry off n). rewrite (entry_run off n s Hn). split_and!.
    + done.
    + split; [|done]. intros He. by apply entry_not_null in He.
    + intros _. split; [done|]. by apply slist_node_from_off_entry.
Qed.

Lemma slist_entry_or_null_spec_witness :
  ∃ r,
    slist_entry_or_null Scenario.children Scenario.c2_slist Scenario.off
      Scenario.three = Ret (r, Scenario.three) ∧
    (r = NULL ↔ Scenario.c2_slist = head_n Scenario.children) ∧
    (Scenario.c2_slist ≠ head_n Scenario.children →
     r = entry Scenario.off Scenario.c2_slist ∧
     slist_node_from_off_ r Scenario.off Scenario.three
     = Ret (Scenario.c2_slist, Scenario.three)).
Proof.
  apply (slist_entry_or_null_spec Scenario.children Scenario.c2_slist).
  discriminate.
Defined.

(** X3. On a well-formed list [slist_next] steps along the traversal
    order: from the record of the link at position [k] it answers the
    record of the link at position [k + 1], and [NULL] when there is
    none; the store is not changed. *)
Theorem slist_next_walk (m : heap) (h : ptr) (off : N) (l : list ptr)
    (k : nat) (n : ptr) :
  is_slist m h l →
  l !! k = Some n →
  slist_next h (entry off n) off m
  = Ret (from_option (entry off) NULL (l !! S k), m).
Proof.
  intros [Hc Hd] Hk.
  apply list_elem_of_split_length in Hk as (pre & suf & -> & ->).
  apply chain_app in Hc as [_ Hc].
  pose proof (chain_not_null _ _ _ _ Hc) as Hnn.
  pose proof (chain_first _ _ _ _ Hc) as Hx.
  replace ((pre ++ n :: suf) !! S (length pre)) with (suf !! 0).
  2:{ rewrite lookup_app_r by lia.
      replace (S (length pre) - length pre) with 1 by lia. done. }
  unfold slist_next, slist_debug. rewrite run_bind, run_ret.
  assert (Hm : lift_ptr (ptr_offset (entry off n) (Z.of_N off)) m = Ret (n, m))
    by (by apply slist_node_from_off_entry).
  rewrite (run_bind_ret _ _ _ _ _ Hm).
  rewrite (run_bind_ret _ _ _ _ _ (load_ret _ _ _ Hx)).
  unfold slist_entry_or_null. destruct suf as [|x suf]; simpl.
  - by rewrite bool_decide_eq_true_2.
  - destruct Hc as [_ Hc]. apply NoDup_cons in Hd as [Hh _].
    rewrite bool_decide_eq_false_2 by set_solver.
    apply entry_run. eauto using chain_not_null.
Qed.

Lemma slist_next_walk_witness :
  slist_next Scenario.children Scenario.c2 Scenario.off Scenario.three
  = Ret (Scenario.c3, Scenario.three) ∧
  slist_next Scenario.children Scenario.c3 Scenario.off Scenario.three
  = Ret (NULL, Scenario.three).
Proof.
  split.
  - apply (slist_next_walk Scenario.three Scenario.children Scenario.off
             [Scenario.c1_slist; Scenario.c2_slist; Scenario.c3_slist] 1
             Scenario.c2_slist); [decide_closed | reflexivity].
  - apply (slist_next_walk Scenario.three Scenario.children Scenario.off
             [Scenario.c1_slist; Scenario.c2_slist; Scenario.c3_slist] 2
             Scenario.c3_slist); [decide_closed | reflexivity].
Defined.

(** X4. [slist_add_after] puts the new link right after the existing
    one and nowhere else: if the list is [l1 ++ l2] and [p] is the last
    of the sentinel and [l1], then afterwards the list is
    [l1 ++ n :: l2], a traversal visits the records in that order, and
    only the cells of [p] and [n] were written. *)
Theorem slist_add_after_inserts (m : heap) (h : ptr) (l1 l2 : list ptr)
    (p n : ptr) (off : N) (fuel : nat) :
  is_slist m h (l1 ++ l2) →
  last (head_n h :: l1) = Some p →
  n ∉ head_n h :: l1 ++ l2 →
  n ≠ NULL →
  S (length (l1 ++ l2)) < fuel →
  ∃ m',
    slist_add_after h p n m = Ret (tt, m') ∧
    is_slist m' h (l1 ++ n :: l2) ∧
    slist_for_each_off fuel h off m'
    = Ret (entry off <$> l1 ++ n :: l2, m') ∧
    (∀ q, q ≠ p → q ≠ n → next m' q = next m q).
Proof.
  intros Hl Hlast Hn Hnn Hf.
  destruct (slist_add_after_spec m h l1 l2 p n SLIST_LOC Hl Hlast Hn Hnn)
    as (m' & Hrun & Hl').
  exists m'. split_and!; [done | done | |].
  - apply slist_for_each_off_spec; [done|].
    rewrite length_app in *. simpl. lia.
  - assert (∃ x, next m p = Some x) as [x Hx].
    { unfold slist_add_after_ in Hrun. rewrite run_bind in Hrun.
      destruct (load p m) as [[x m1]| | |] eqn:Hld; try discriminate.
      apply load_inv in Hld as [Hx _]. eauto. }
    rewrite (slist_add_after_run m h p n SLIST_LOC x Hx Hnn) in Hrun.
    injection Hrun as <-. intros q Hqp Hqn.
    by rewrite !next_updated_ne.
Qed.

Lemma slist_add_after_inserts_witness :
  ∃ m',
    slist_add_after Scenario.children Scenario.c3_slist Scenario.c1_slist
      Scenario.two = Ret (tt, m') ∧
    is_slist m' Scenario.children
      ([Scenario.c2_slist; Scenario.c3_slist] ++ Scenario.c1_slist :: []) ∧
    slist_for_each_off 4 Scenario.children Scenario.off m'
    = Ret (entry Scenario.off
           <$> [Scenario.c2_slist; Scenario.c3_slist] ++ Scenario.c1_slist :: [],
           m') ∧
    (∀ q, q ≠ Scenario.c3_slist → q ≠ Scenario.c1_slist →
          next m' q = next Scenario.two q).
Proof.
  apply (slist_add_after_inserts Scenario.two Scenario.children
           [Scenario.c2_slist; Scenario.c3_slist] [] Scenario.c3_slist
           Scenario.c1_slist Scenario.off 4).
  - decide_closed.
  - reflexivity.
  - decide_closed.
  - discriminate.
  - simpl. lia.
Defined.

Lemma slist_add_inv m h n loc m' :
  slist_add_ h n loc m = Ret (tt, m') →
  ∃ x, next m h = Some x ∧ n ≠ NULL ∧ m' = updated (updated m n x) h n.
Proof.
  intros Hrun. pose proof Hrun as Hrun'.
  unfold slist_add_, head_n in Hrun. rewrite run_bind in Hrun.
  destruct (load h m) as [[x m1]| | |] eqn:Hld; try discriminate.
  apply load_inv in Hld as [Hx ->]. exists x.
  destruct (decide (n = NULL)) as [->|Hn]; [discriminate|].
  rewrite (slist_add_run m h n loc x Hx Hn) in Hrun'. by injection Hrun' as <-.
Qed.

Lemma slist_add_after_inv m h p n loc m' :
  slist_add_after_ h p n loc m = Ret (tt, m') →
  ∃ x, next m p = Some x ∧ n ≠ NULL ∧ m' = updated (updated m n x) p n.
Proof.
  intros Hrun. pose proof Hrun as Hrun'.
  unfold slist_add_after_ in Hrun. rewrite run_bind in Hrun.
  destruct (load p m) as [[x m1]| | |] eqn:Hld; try discriminate.
  apply load_inv in Hld as [Hx ->]. exists x.
  destruct (decide (n = NULL)) as [->|Hn]; [discriminate|].
  rewrite (slist_add_after_run m h p n loc x Hx Hn) in Hrun'.
  by injection Hrun' as <-.
Qed.

Lemma slist_pop_inv m h off r m' :
  slist_pop_ h off m = Ret (r, m') →
  (r = NULL ∧ m' = m ∧ next m h = Some (head_n h)) ∨
  (∃ n x, next m h = Some n ∧ n ≠ head_n h ∧ next m n = Some x ∧
          r = entry off n ∧ m' = updated m h x).
Proof.
  intros Hrun. pose proof Hrun as Hrun'.
  unfold slist_pop_ in Hrun. rewrite run_bind in Hrun.
  destruct (slist_empty h m) as [[e m1]| | |] eqn:He; try discriminate.
  apply slist_empty_inv in He as (n & Hn & -> & ->).
  case_bool_decide as Hnh.
  - left. injection Hrun as <- <-. by subst.
  - right. unfold head_n in Hrun.
    rewrite (run_bind_ret _ _ _ _ _ (load_ret _ _ _ Hn)) in Hrun.
    rewrite run_bind in Hrun.
    destruct (load n m) as [[x m1]| | |] eqn:Hld; try discriminate.
    apply load_inv in Hld as [Hx ->]. exists n, x.
    rewrite (slist_pop_run m h off n x Hn Hnh Hx) in Hrun'.
    injection Hrun' as <- <-. done.
Qed.

Lemma is_slist_updated_frame m h l x v :
  x ∉ head_n h :: l → is_slist m h l → is_slist (updated m x v) h l.
Proof. intros Hx [Hc Hd]. split; [by apply chain_updated_frame | done]. Qed.

(** X5. The link handed to [slist_add_] or [slist_add_after_] need not
    be initialised: whatever its [next] field held before the call, the
    call does the same and leaves the same store. *)
Theorem slist_add_overwrites (m : heap) (h n v : ptr) (loc : cstr) :
  n ≠ head_n h →
  slist_add_ h n loc (updated m n v) = slist_add_ h n loc m ∧
  (∀ p, p ≠ n →
     slist_add_after_ h p n loc (updated m n v) = slist_add_after_ h p n loc m).
Proof.
  intros Hnh. destruct (decide (n = NULL)) as [->|Hn]; [done|]. split.
  - unfold slist_add_. rewrite !run_bind. unfold load.
    rewrite next_updated_ne by done.
    destruct (next m (head_n h)) as [x|] eqn:Hx; [|done].
    rewrite !run_bind, !(store_ret _ n x Hn), updated_twice. done.
  - intros p Hp. unfold slist_add_after_. rewrite !run_bind. unfold load.
    rewrite next_updated_ne by done.
    destruct (next m p) as [x|] eqn:Hx; [|done].
    rewrite !run_bind, !(store_ret _ n x Hn), updated_twice. done.
Qed.

Lemma slist_add_overwrites_witness :
  slist_add_ Scenario.children Scenario.c1_slist SLIST_LOC
    (updated Scenario.two Scenario.c1_slist Scenario.c3)
  = Ret (tt, Scenario.three).
Proof.
  rewrite (proj1 (slist_add_overwrites Scenario.two Scenario.children
                    Scenario.c1_slist Scenario.c3 SLIST_LOC
                    ltac:(discriminate))).
  vm_compute. reflexivity.
Defined.

(** X6. [slist_add] followed by [slist_pop_] is a round trip: the pop
    returns the record of the link just added, the list is the one there
    was before, and the only cell that may differ from before is the
    [next] field of that link. *)
Theorem slist_add_pop_round_trip (m : heap) (h : ptr) (l : list ptr)
    (n : ptr) (off : N) :
  is_slist m h l →
  n ∉ head_n h :: l →
  n ≠ NULL →
  ∃ m1 m2,
    slist_add h n m = Ret (tt, m1) ∧
    slist_pop_ h off m1 = Ret (entry off n, m2) ∧
    is_slist m2 h l ∧
    (∀ q, q ≠ n → next m2 q = next m q).
Proof.
  intros Hl Hn Hnn.
  destruct (slist_add_spec m h l n SLIST_LOC Hl Hn Hnn) as (m1 & Hadd & Hl1).
  destruct (slist_pop_spec m1 h off n l Hl1) as [Hpop Hl2].
  exists m1, (updated m1 h (hd (head_n h) l)). split_and!; [done.. |].
  intros q Hq. apply slist_add_inv in Hadd as (x & Hx & _ & ->).
  destruct Hl as [Hc _]. pose proof (chain_first _ _ _ _ Hc) as Hf.
  unfold head_n in *. rewrite Hx in Hf. injection Hf as ->.
  rewrite updated_twice.
  destruct (decide (q = h)) as [->|Hqh].
  - rewrite next_updated_eq by eauto using next_not_null. done.
  - by rewrite !next_updated_ne.
Qed.

Lemma slist_add_pop_round_trip_witness :
  ∃ m1 m2,
    slist_add Scenario.children Scenario.c1_slist Scenario.two = Ret (tt, m1) ∧
    slist_pop_ Scenario.children Scenario.off m1
    = Ret (entry Scenario.off Scenario.c1_slist, m2) ∧
    is_slist m2 Scenario.children [Scenario.c2_slist; Scenario.c3_slist] ∧
    (∀ q, q ≠ Scenario.c1_slist → next m2 q = next Scenario.two q).
Proof.
  apply (slist_add_pop_round_trip Scenario.two Scenario.children
           [Scenario.c2_slist; Scenario.c3_slist] Scenario.c1_slist
           Scenario.off).
  - decide_closed.
  - decide_closed.
  - discriminate.
Defined.

(** X7. Lists that share no link do not disturb each other: if the
    sentinel of [h1] and the links handed to an operation on [h1] are
    outside the list of [h2], then [slist_head_init], [slist_add_],
    [slist_add_after_] and [slist_pop_] on [h1] leave the list of [h2]
    as it was. *)
Theorem slist_other_list_untouched (m : heap) (h1 h2 : ptr) (l2 : list ptr) :
  is_slist m h2 l2 →
  head_n h1 ∉ head_n h2 :: l2 →
  (∀ m', slist_head_init h1 m = Ret (tt, m') → is_slist m' h2 l2) ∧
  (∀ n loc m', n ∉ head_n h2 :: l2 →
     slist_add_ h1 n loc m = Ret (tt, m') → is_slist m' h2 l2) ∧
  (∀ p n loc m', p ∉ head_n h2 :: l2 → n ∉ head_n h2 :: l2 →
     slist_add_after_ h1 p n loc m = Ret (tt, m') → is_slist m' h2 l2) ∧
  (∀ off r m', slist_pop_ h1 off m = Ret (r, m') → is_slist m' h2 l2).
Proof.
  intros Hl Hh. split_and!.
  - intros m' [_ ->]%store_inv. by apply is_slist_updated_frame.
  - intros n loc m' Hn (x & _ & _ & ->)%slist_add_inv.
    apply is_slist_updated_frame; [done|]. by apply is_slist_updated_frame.
  - intros p n loc m' Hp Hn (x & _ & _ & ->)%slist_add_after_inv.
    apply is_slist_updated_frame; [done|]. by apply is_slist_updated_frame.
  - intros off r m' [(_ & -> & _)|(n & x & _ & _ & _ & _ & ->)]%slist_pop_inv;
      [done|]. by apply is_slist_updated_frame.
Qed.

Lemma slist_other_list_untouched_witness :
  is_slist
    (updated (updated (updated Scenario.three (Ptr 9 0) (Ptr 9 0))
                (Ptr 10 8) (Ptr 9 0)) (Ptr 9 0) (Ptr 10 8))
    Scenario.children
    [Scenario.c1_slist; Scenario.c2_slist; Scenario.c3_slist].
Proof.
  apply (proj1 (proj2 (slist_other_list_untouched
                         (updated Scenario.three (Ptr 9 0) (Ptr 9 0))
                         (Ptr 9 0) Scenario.children
                         [Scenario.c1_slist; Scenario.c2_slist; Scenario.c3_slist]
                         ltac:(decide_closed) ltac:(decide_closed)))
           (Ptr 10 8) SLIST_LOC).
  - decide_closed.
  - vm_compute. reflexivity.
Defined.

(** X8. [slist_head_init] makes any head the head of an empty list,
    whatever was linked to it before: afterwards [slist_empty] is true
    and a traversal visits nothing.  It writes only the sentinel, so the
    links that were in the list keep their [next] fields, and a second
    call changes nothing. *)
Theorem slist_head_init_resets (m : heap) (h : ptr) :
  h ≠ NULL →
  ∃ m',
    slist_head_init h m = Ret (tt, m') ∧
    slist_empty h m' = Ret (true, m') ∧
    (∀ fuel off, 0 < fuel → slist_for_each_off fuel h off m' = Ret ([], m')) ∧
    (∀ q, q ≠ head_n h → next m' q = next m q) ∧
    slist_head_init h m' = Ret (tt, m').
Proof.
  intros Hh. destruct (slist_head_init_spec m h Hh) as [Hinit Hl].
  exists (updated m h h). split_and!.
  - done.
  - destruct Hl as [Hc _]. simpl in Hc.
    by rewrite (slist_empty_run _ h _ Hc), bool_decide_eq_true_2.
  - intros fuel off Hf. by apply (slist_for_each_off_spec fuel _ h off []).
  - intros q Hq. by apply next_updated_ne.
  - destruct (slist_head_init_spec (updated m h h) h Hh) as [Hinit' _].
    by rewrite updated_twice in Hinit'.
Qed.

Lemma slist_head_init_resets_witness :
  ∃ m',
    slist_head_init Scenario.children Scenario.three = Ret (tt, m') ∧
    slist_empty Scenario.children m' = Ret (true, m') ∧
    (∀ fuel off, 0 < fuel →
       slist_for_each_off fuel Scenario.children off m' = Ret ([], m')) ∧
    (∀ q, q ≠ head_n Scenario.children → next m' q = next Scenario.three q) ∧
    slist_head_init Scenario.children m' = Ret (tt, m').
Proof.
  apply (slist_head_init_resets Scenario.three Scenario.children).
  discriminate.
Defined.

Lemma chain_next_in m p l q y :
  chain m p l q → y ∈ p :: l → ∃ z, next m y = Some z ∧ z ∈ l ++ [q].
Proof.
  revert p. induction l as [|a l IH]; intros p Hc Hy.
  - simpl in Hc. exists q. set_solver.
  - destruct Hc as [Ha Hc]. apply elem_of_cons in Hy as [->|Hy].
    + exists a. set_solver.
    + destruct (IH a Hc Hy) as (z & Hz & Hin). exists z. set_solver.
Qed.

(** A traversal that enters a set of links closed under [next] and
    without the sentinel does not come out of it. *)
Lemma slist_for_each_from_closed m h off (S : list ptr) fuel y :
  (∀ y, y ∈ S → ∃ z, next m y = Some z ∧ z ∈ S) →
  head_n h ∉ S → y ∈ S →
  slist_for_each_from fuel h off (entry off y) m = Timeout.
Proof.
  intros Hclosed Hh. revert y. induction fuel as [|fuel IH]; intros y Hy; [done|].
  destruct (Hclosed y Hy) as (z & Hz & Hin).
  destruct (Hclosed z Hin) as (z' & Hz' & _).
  cbn [slist_for_each_from].
  rewrite (run_bind_ret _ _ _ _ _
             (slist_node_from_off_entry off y m (next_not_null _ _ _ Hz))).
  rewrite bool_decide_eq_false_2 by set_solver.
  rewrite (run_bind_ret _ _ _ _ _ (load_ret _ _ _ Hz)).
  unfold slist_node_to_off_.
  rewrite (run_bind_ret _ _ _ _ _ (entry_run off z m (next_not_null _ _ _ Hz'))).
  rewrite run_bind, (IH z Hin). done.
Qed.

(** X9. A link must not be added while it is in the list.  [slist_add]
    of a link that is already a member succeeds, but it closes a cycle
    that does not pass through the sentinel, and no traversal of the
    list ends after that, however many steps it is given. *)
Theorem slist_add_member_never_ends (m : heap) (h : ptr) (l : list ptr)
    (n : ptr) (off : N) :
  is_slist m h l →
  n ∈ l →
  ∃ m',
    slist_add h n m = Ret (tt, m') ∧
    ∀ fuel, slist_for_each_off fuel h off m' = Timeout.
Proof.
  intros [Hc Hd] Hn.
  apply list_elem_of_split in Hn as (pre & suf & ->).
  pose proof (chain_first _ _ _ _ Hc) as Hx.
  pose proof (chain_all_not_null _ _ _ _ Hc) as Hnull.
  assert (Hnn : n ≠ NULL) by set_solver.
  assert (Hhn : head_n h ≠ NULL) by set_solver.
  apply chain_app in Hc as [Hpre _].
  apply NoDup_cons in Hd as [Hh Hd]. apply NoDup_app in Hd as (_ & Hdis & _).
  set (x := hd (head_n h) (pre ++ n :: suf)) in *.
  assert (Hxin : x ∈ n :: pre) by (subst x; destruct pre; set_solver).
  exists (updated (updated m n x) h n). split; [by apply slist_add_run|].
  intros fuel. unfold slist_for_each_off, slist_debug.
  rewrite run_bind, run_ret.
  assert (Hfirst : next (updated (updated m n x) h n) (head_n h) = Some n)
    by (by apply next_updated_eq).
  rewrite (run_bind_ret _ _ _ _ _ (load_ret _ _ _ Hfirst)).
  unfold slist_node_to_off_.
  rewrite (run_bind_ret _ _ _ _ _ (entry_run off n _ Hnn)).
  apply (slist_for_each_from_closed _ h off (n :: pre)); [| set_solver | set_solver].
  intros y Hy. apply elem_of_cons in Hy as [->|Hy].
  - exists x. split; [|done].
    rewrite next_updated_ne by (unfold head_n in *; set_solver).
    by apply next_updated_eq.
  - destruct (chain_next_in _ _ _ _ y Hpre ltac:(set_solver)) as (z & Hz & Hin).
    exists z. split; [|set_solver].
    rewrite !next_updated_ne; [done | | ].
    + intros ->. apply (Hdis n); set_solver.
    + unfold head_n in *. set_solver.
Qed.

Lemma slist_add_member_never_ends_witness :
  ∃ m',
    slist_add Scenario.children Scenario.c3_slist Scenario.three
    = Ret (tt, m') ∧
    ∀ fuel, slist_for_each_off fuel Scenario.children Scenario.off m' = Timeout.
Proof.
  apply (slist_add_member_never_ends Scenario.three Scenario.children
           [Scenario.c1_slist; Scenario.c2_slist; Scenario.c3_slist]
           Scenario.c3_slist Scenario.off).
  - decide_closed.
  - decide_closed.
Defined.

(** X10. [slist_empty] and [slist_top_] only read.  What [slist_pop_]
    returns is what [slist_top_] would have returned on the same store,
    and after a pop from a well-formed list [slist_top_] returns the
    record of the link that was second, or [NULL] if there was none. *)
Theorem slist_top_is_what_pop_returns (m : heap) (h : ptr) (off : N) :
  (∀ e m', slist_empty h m = Ret (e, m') → m' = m) ∧
  (∀ r m', slist_top_ h off m = Ret (r, m') → m' = m) ∧
  (∀ r m', slist_pop_ h off m = Ret (r, m') → slist_top_ h off m = Ret (r, m)) ∧
  (∀ n l, is_slist m h (n :: l) →
     ∃ m', slist_pop_ h off m = Ret (entry off n, m') ∧
           slist_top_ h off m' = Ret (from_option (entry off) NULL (l !! 0), m')).
Proof.
  split_and!.
  - by intros e m' (x & _ & _ & ->)%slist_empty_inv.
  - intros r m' Hrun. unfold slist_top_ in Hrun. rewrite run_bind in Hrun.
    destruct (slist_empty h m) as [[e m1]| | |] eqn:He; try discriminate.
    apply slist_empty_inv in He as (x & Hx & -> & ->).
    case_bool_decide; [by injection Hrun as _ <-|].
    unfold head_n in Hrun.
    rewrite (run_bind_ret _ _ _ _ _ (load_ret _ _ _ Hx)) in Hrun.
    destruct x; simpl in Hrun; [done|]. by injection Hrun as _ <-.
  - intros r m' [(-> & _ & Hx)|(n & x & Hn & Hne & Hx & -> & _)]%slist_pop_inv.
    + by apply slist_top_empty.
    + apply slist_top_run; eauto using next_not_null.
  - intros n l Hl. destruct (slist_pop_spec m h off n l Hl) as [Hpop Hl'].
    eexists. split; [exact Hpop|]. destruct Hl' as [Hc Hd].
    destruct l as [|x l]; simpl in *.
    + by apply slist_top_empty.
    + destruct Hc as [Hx Hc]. apply NoDup_cons in Hd as [Hh _].
      apply slist_top_run; [done | set_solver | eauto using chain_not_null].
Qed.

Lemma slist_top_is_what_pop_returns_witness :
  ∃ m', slist_pop_ Scenario.children Scenario.off Scenario.three
        = Ret (entry Scenario.off Scenario.c1_slist, m') ∧
        slist_top_ Scenario.children Scenario.off m'
        = Ret (from_option (entry Scenario.off) NULL
                 ([Scenario.c2_slist; Scenario.c3_slist] !! 0), m').
Proof.
  apply (proj2 (proj2 (proj2 (slist_top_is_what_pop_returns Scenario.three
                                Scenario.children Scenario.off)))).
  decide_closed.
Defined.

Lemma slist_for_each_from_do_chain {A} (body : ptr → A → A * bool)
    fuel m h off x l a :
  chain m x l (head_n h) → head_n h ∉ x :: l → head_n h ≠ NULL →
  length l < fuel →
  slist_for_each_from_do body (S fuel) h off (entry off x) a m
  = Ret (fold_break body (entry off <$> x :: l) a, m).
Proof.
  revert fuel x a. induction l as [|y l IH]; intros fuel x a Hc Hh Hhn Hf.
  - simpl in Hc. pose proof (next_not_null _ _ _ Hc) as Hx.
    cbn [slist_for_each_from_do].
    rewrite (run_bind_ret _ _ _ _ _ (slist_node_from_off_entry _ _ _ Hx)).
    rewrite bool_decide_eq_false_2 by set_solver. simpl.
    destruct (body (entry off x) a) as [a' [|]]; [done|].
    rewrite (run_bind_ret _ _ _ _ _ (load_ret _ _ _ Hc)).
    unfold slist_node_to_off_.
    rewrite (run_bind_ret _ _ _ _ _ (entry_run _ _ _ Hhn)).
    destruct fuel as [|fuel]; [simpl in Hf; lia|].
    cbn [slist_for_each_from_do].
    rewrite (run_bind_ret _ _ _ _ _ (slist_node_from_off_entry _ _ _ Hhn)).
    by rewrite bool_decide_eq_true_2.
  - destruct Hc as [Hy Hc]. pose proof (next_not_null _ _ _ Hy) as Hx.
    pose proof (chain_not_null _ _ _ _ Hc) as Hyn.
    cbn [slist_for_each_from_do].
    rewrite (run_bind_ret _ _ _ _ _ (slist_node_from_off_entry _ _ _ Hx)).
    rewrite bool_decide_eq_false_2 by set_solver.
    cbn [fmap list_fmap fold_break].
    destruct (body (entry off x) a) as [a' [|]]; [done|].
    rewrite (run_bind_ret _ _ _ _ _ (load_ret _ _ _ Hy)).
    unfold slist_node_to_off_.
    rewrite (run_bind_ret _ _ _ _ _ (entry_run _ _ _ Hyn)).
    destruct fuel as [|fuel]; [simpl in Hf; lia|].
    apply IH; [done | set_solver | done | simpl in Hf; lia].
Qed.

(** X11. A [slist_for_each_off] loop over a well-formed list, with a
    body that does not write to the links, runs the body on the records
    of the links in list order, stops at the first [break], never hands
    the sentinel to the body, and leaves the store as it was. *)
Theorem slist_for_each_off_do_fold {A : Type} (body : ptr → A → A * bool)
    (m : heap) (h : ptr) (off : N) (l : list ptr) (a : A) (fuel : nat) :
  is_slist m h l →
  length l < fuel →
  slist_for_each_off_do body fuel h off a m
  = Ret (fold_break body (entry off <$> l) a, m).
Proof.
  intros [Hc Hd] Hf. apply NoDup_cons in Hd as [Hh _].
  pose proof (chain_not_null _ _ _ _ Hc) as Hhn.
  unfold slist_for_each_off_do, slist_debug. rewrite run_bind, run_ret.
  destruct fuel as [|fuel]; [lia|].
  destruct l as [|x l].
  - simpl in Hc.
    rewrite (run_bind_ret _ _ _ _ _ (load_ret _ _ _ Hc)).
    unfold slist_node_to_off_.
    rewrite (run_bind_ret _ _ _ _ _ (entry_run _ _ _ Hhn)).
    cbn [slist_for_each_from_do].
    rewrite (run_bind_ret _ _ _ _ _ (slist_node_from_off_entry _ _ _ Hhn)).
    by rewrite bool_decide_eq_true_2.
  - destruct Hc as [Hx Hc].
    rewrite (run_bind_ret _ _ _ _ _ (load_ret _ _ _ Hx)).
    unfold slist_node_to_off_.
    rewrite (run_bind_ret _ _ _ _ _ (entry_run _ _ _ (chain_not_null _ _ _ _ Hc))).
    apply slist_for_each_from_do_chain; [done | done | done | simpl in Hf; lia].
Qed.

(** The loop of [test/run.c]: count the records, leave after the third. *)
Lemma slist_for_each_off_do_fold_witness :
  slist_for_each_off_do (λ _ i, (S i, 2 <? S i)) 4
    Scenario.children Scenario.off 0 Scenario.three
  = Ret (3, Scenario.three).
Proof.
  rewrite (slist_for_each_off_do_fold (λ _ i, (S i, 2 <? S i))
             Scenario.three Scenario.children Scenario.off
             [Scenario.c1_slist; Scenario.c2_slist; Scenario.c3_slist] 0 4).
  - reflexivity.
  - decide_closed.
  - simpl. lia.
Defined.

(** ** Further properties of the checker of a debug build *)

Lemma debug_load_next_inv p d v d' :
  Debug.load_next p d = Ret (v, d') → next (Debug.nexts d) p = Some v ∧ d' = d.
Proof.
  destruct d as [nm pm]. unfold Debug.load_next, Debug.on_nexts, load. simpl.
  destruct (next nm p); intros [=]; by subst.
Qed.

Lemma debug_load_prev_inv p d v d' :
  Debug.load_prev p d = Ret (v, d') → next (Debug.prevs d) p = Some v ∧ d' = d.
Proof.
  unfold Debug.load_prev. destruct (next (Debug.prevs d) p); intros [=]; by subst.
Qed.

Lemma debug_load_next_ret p d v :
  next (Debug.nexts d) p = Some v → Debug.load_next p d = Ret (v, d).
Proof.
  destruct d as [nm pm]. unfold Debug.load_next, Debug.on_nexts, load. simpl.
  by intros ->.
Qed.

Lemma debug_load_prev_ret p d v :
  next (Debug.prevs d) p = Some v → Debug.load_prev p d = Ret (v, d).
Proof. unfold Debug.load_prev. by intros ->. Qed.





Lemma debug_loop_sound fuel node abortstr p xs count d d' :
  chain (Debug.nexts d) p xs node → node ∉ xs → node ≠ NULL →
  Debug.slist_check_node_loop fuel node abortstr p (hd node xs) count d
  = Ret (node, d') →
  pchain (Debug.prevs d) p xs node.
Proof.
  revert fuel p count.
  induction xs as [|x xs IH]; intros fuel p count Hc Hn Hnn;
    (destruct fuel as [|fuel]; [done|]); cbn [Debug.slist_check_node_loop hd].
  - rewrite bool_decide_eq_false_2 by (intros Hne; by apply Hne).
    rewrite run_bind.
    destruct (Debug.load_prev node d) as [[pv d1]| | |] eqn:Hpv; try done.
    apply debug_load_prev_inv in Hpv as [Hpv ->]. case_bool_decide as Hne.
    + destruct abortstr; simpl; [done|]. by intros [= <- _].
    + intros _. simpl. by subst.
  - destruct Hc as [Hx Hc].
    rewrite bool_decide_eq_true_2 by set_solver. rewrite run_bind.
    destruct (Debug.load_prev x d) as [[pv d1]| | |] eqn:Hpv; try done.
    apply debug_load_prev_inv in Hpv as [Hpv ->]. case_bool_decide as Hne.
    + destruct abortstr; simpl; [done|]. by intros [= <- _].
    + subst pv.
      rewrite (run_bind_ret _ _ _ _ _
                 (debug_load_next_ret _ _ _ (chain_first _ _ _ _ Hc))).
      intros Hrun. split; [done|].
      eapply IH; [done | set_solver | done | exact Hrun].
Qed.

Lemma debug_loop_complete fuel node abortstr p xs count d :
  chain (Debug.nexts d) p xs node → node ∉ xs →
  pchain (Debug.prevs d) p xs node → length xs < fuel →
  Debug.slist_check_node_loop fuel node abortstr p (hd node xs) count d
  = Ret (node, d).
Proof.
  revert fuel p count.
  induction xs as [|x xs IH]; intros fuel p count Hc Hn Hp Hf;
    (destruct fuel as [|fuel]; [simpl in Hf; lia|]);
    cbn [Debug.slist_check_node_loop hd].
  - rewrite bool_decide_eq_false_2 by (intros Hne; by apply Hne).
    simpl in Hp. rewrite (run_bind_ret _ _ _ _ _ (debug_load_prev_ret _ _ _ Hp)).
    by rewrite bool_decide_eq_false_2 by (intros Hne; by apply Hne).
  - destruct Hc as [Hx Hc]. destruct Hp as [Hpx Hp].
    rewrite bool_decide_eq_true_2 by set_solver.
    rewrite (run_bind_ret _ _ _ _ _ (debug_load_prev_ret _ _ _ Hpx)).
    rewrite bool_decide_eq_false_2 by (intros Hne; by apply Hne).
    rewrite (run_bind_ret _ _ _ _ _
               (debug_load_next_ret _ _ _ (chain_first _ _ _ _ Hc))).
    apply IH; [done | set_solver | done | simpl in Hf; lia].
Qed.

(** X13. What the checker of a debug build checks.  On a ring whose
    [next] fields lead from [node] through the links [l] back to [node],
    and given enough steps to go round it, [slist_check_node] returns
    [node] exactly when the [prev] fields mirror the ring: the [prev] of
    each link is the link before it and the [prev] of [node] is the last
    link. *)
Theorem debug_check_node_accepts_iff (fuel : nat) (node : ptr)
    (abortstr : cstr) (d : Debug.dstore) (l : list ptr) :
  chain (Debug.nexts d) node l node →
  node ∉ l →
  length l < fuel →
  Debug.slist_check_node fuel node abortstr d = Ret (node, d)
  ↔ pchain (Debug.prevs d) node l node.
Proof.
  intros Hc Hn Hf. pose proof (chain_not_null _ _ _ _ Hc) as Hnn.
  unfold Debug.slist_check_node.
  rewrite (run_bind_ret _ _ _ _ _
             (debug_load_next_ret _ _ _ (chain_first _ _ _ _ Hc))).
  split.
  - by apply debug_loop_sound.
  - intros Hp. by apply debug_loop_complete.
Qed.

Lemma debug_check_node_accepts_iff_witness :
  Debug.slist_check_node 3 Scenario.children None
    (Debug.DStore Scenario.two
       (<[(1%positive, 8%Z) := Scenario.c3_slist]>
          (<[(4%positive, 8%Z) := Scenario.c2_slist]>
             {[ (3%positive, 8%Z) := Scenario.children ]})))
  = Ret (Scenario.children,
         Debug.DStore Scenario.two
           (<[(1%positive, 8%Z) := Scenario.c3_slist]>
              (<[(4%positive, 8%Z) := Scenario.c2_slist]>
                 {[ (3%positive, 8%Z) := Scenario.children ]}))).
Proof.
  apply (debug_check_node_accepts_iff 3 Scenario.children None
           (Debug.DStore Scenario.two
              (<[(1%positive, 8%Z) := Scenario.c3_slist]>
                 (<[(4%positive, 8%Z) := Scenario.c2_slist]>
                    {[ (3%positive, 8%Z) := Scenario.children ]})))
           [Scenario.c2_slist; Scenario.c3_slist]).
  - decide_closed.
  - decide_closed.
  - simpl. lia.
  - vm_compute. auto.
Defined.

(** X14. No operation of [slist.h] writes a [prev] field, so in a debug
    build [slist_add_] undoes what the checker looks for: on a list that
    [slist_check_node] accepts, adding a new link gives a list that it
    does not accept, however many steps it is given. *)
Theorem debug_add_breaks_check (fuel : nat) (h n : ptr) (loc abortstr : cstr)
    (d d' : Debug.dstore) (l : list ptr) :
  is_slist (Debug.nexts d) h l →
  pchain (Debug.prevs d) (head_n h) l (head_n h) →
  n ∉ head_n h :: l →
  Debug.slist_add_ h n loc d = Ret (tt, d') →
  Debug.slist_check_node fuel (head_n h) abortstr d' ≠ Ret (head_n h, d').
Proof.
  intros Hl Hp Hn Hadd Hcheck.
  pose proof (debug_on_nexts_prevs _ _ _ _ Hadd) as Hprev.
  unfold Debug.slist_add_, Debug.on_nexts in Hadd.
  destruct (slist_add_ h n loc (Debug.nexts d)) as [[[] m']| | |] eqn:Hrun;
    try discriminate.
  injection Hadd as <-. simpl in *.
  pose proof Hrun as (x & _ & Hnn & _)%slist_add_inv.
  destruct (slist_add_spec _ h l n loc Hl Hn Hnn) as (m'' & Hrun' & [Hc Hd]).
  rewrite Hrun in Hrun'. injection Hrun' as <-.
  unfold Debug.slist_check_node in Hcheck.
  rewrite (run_bind_ret _ _ _ _ _
             (debug_load_next_ret _ (Debug.DStore m' _) _
                (chain_first _ _ _ _ Hc))) in Hcheck.
  apply NoDup_cons in Hd as [Hh _].
  apply (debug_loop_sound fuel (head_n h) abortstr (head_n h) (n :: l)) in Hcheck;
    [| done | done | eauto using chain_not_null].
  simpl in Hcheck. destruct Hcheck as [_ Hp'].
  destruct l as [|y l]; simpl in *.
  - rewrite Hp in Hp'. set_solver.
  - destruct Hp as [Hp _]. destruct Hp' as [Hp' _]. rewrite Hp in Hp'.
    set_solver.
Qed.

Lemma debug_add_breaks_check_witness :
  Debug.slist_check_node 5 (head_n Scenario.children) None
    (Debug.DStore Scenario.one {[ (1%positive, 8%Z) := Scenario.children ]})
  ≠ Ret (head_n Scenario.children,
         Debug.DStore Scenario.one {[ (1%positive, 8%Z) := Scenario.children ]}).
Proof.
  apply (debug_add_breaks_check 5 Scenario.children Scenario.c3_slist SLIST_LOC
           None
           (Debug.DStore Scenario.fresh
              {[ (1%positive, 8%Z) := Scenario.children ]})
           (Debug.DStore Scenario.one
              {[ (1%positive, 8%Z) := Scenario.children ]}) []).
  - decide_closed.
  - reflexivity.
  - decide_closed.
  - vm_compute. reflexivity.
Defined.
